(** * The hierarchical key-value store (package fileSystem)

    A shallow embedding of the file system facade (Get, Create, Update,
    TestAndSet, Delete), of the tree walk under it and of the ACL adapter
    (checkPerm, hasPerm, hasPermOnParent), followed by the properties of
    the specification that concern them.

    Conventions of the embedding:
    - a Go [string] is a [string] (a sequence of bytes); a [rune] is the
      [N] of its code point, and [range] over a string decodes UTF-8
      (module [utf8]); a [uint64] is an [N], since the code only stores
      and compares indices and terms;
    - a [map[string]*Node] is a [gmap string Node]; the nil map of a file
      node is [None];
    - a [*Node] obtained by walking the tree is a [NodePtr]: the names
      walked from the root, together with the node read there;
    - a method of [*FileSystem] is a function in the monad [M], which
      threads the file system and returns a value, an etcd error or a
      run-time panic. *)

From Stdlib Require Import ZArith NArith DecimalString.
From stdpp Require Import base option gmap strings list fin_maps sorting.
From Stdlib Require Import Ascii String.

#[local] Set Warnings "-register-all".
#[local] Open Scope string_scope.

(** ** Go's [strings] and [path] packages, as far as the store uses them *)

Module strings.

(** [strings.Split(s, "/")]: the pieces of [s] between slashes; the empty
    string gives one empty piece. *)
Fixpoint Split (s : string) : list string :=
  match s with
  | EmptyString => [EmptyString]
  | String c s' =>
      if decide (c = "/"%char) then EmptyString :: Split s'
      else match Split s' with
           | x :: xs => String c x :: xs
           | [] => [String c EmptyString]
           end
  end.

(** [strings.Join(elems, "/")]. *)
Definition Join (elems : list string) : string := String.concat "/" elems.

End strings.

Module path.

(** One step of [path.Clean] on a component, the components kept so far
    being held last-first. *)
Definition clean_step (rooted : bool) (kept : list string) (c : string)
  : list string :=
  if decide (c = "") then kept
  else if decide (c = ".") then kept
  else if decide (c = "..") then
    match kept with
    | [] => if rooted then [] else [".."]
    | x :: kept' =>
        if rooted then kept'
        else if decide (x = "..") then ".." :: kept else kept'
    end
  else c :: kept.

Definition is_rooted (p : string) : bool :=
  match p with
  | String c _ => bool_decide (c = "/"%char)
  | EmptyString => false
  end.

(** [path.Clean]: multiple slashes become one, [.] elements go, an inner
    [..] goes with the element before it, a [..] that begins a rooted path
    goes; the empty result is [.]. *)
Definition Clean (p : string) : string :=
  let rooted := is_rooted p in
  let kept := fold_left (clean_step rooted) (strings.Split p) [] in
  let body := strings.Join (rev kept) in
  if rooted then "/" ++ body
  else if decide (body = "") then "." else body.

(** [path.Join]: the elements from the first non-empty one on, joined by
    slashes and cleaned; the empty string when all are empty. *)
Fixpoint Join (elem : list string) : string :=
  match elem with
  | [] => ""
  | e :: rest =>
      if decide (e = "") then Join rest else Clean (strings.Join elem)
  end.

(** [path.Split]: the path up to and with its last slash, and the rest. *)
Fixpoint Split (p : string) : string * string :=
  match p with
  | EmptyString => ("", "")
  | String c p' =>
      let '(dir, file) := Split p' in
      if decide (c = "/"%char) then (String c dir, file)
      else if decide (dir = "") then ("", String c file)
      else (String c dir, file)
  end.

End path.

(** The last byte of a string, if any. *)
Fixpoint last_byte (s : string) : option ascii :=
  match s with
  | EmptyString => None
  | String c EmptyString => Some c
  | String _ s' => last_byte s'
  end.

(** A string without its last byte: [s[:len(s)-1]]. *)
Fixpoint drop_last_byte (s : string) : string :=
  match s with
  | EmptyString => EmptyString
  | String _ EmptyString => EmptyString
  | String c s' => String c (drop_last_byte s')
  end.

(** [pathCleaning]: [path.Clean], then the last slash removed, so that the
    root becomes the empty string. *)
Definition pathCleaning (nodePath : string) : string :=
  let nodePath := path.Clean nodePath in
  if decide (last_byte nodePath = Some "/"%char) then drop_last_byte nodePath
  else nodePath.

(** ** Go's [time] package, as far as the store uses it *)

Module time.

(** An instant, in nanoseconds from the zero instant. *)
Definition Time : Type := Z.

(** [time.Second], a [Duration] in nanoseconds. *)
Definition Second : Z := 1000000000.

Definition maxDuration : Z := 9223372036854775807.
Definition minDuration : Z := -9223372036854775808.

(** [t.Sub(u)]: the duration [t - u], kept within an [int64]. *)
Definition Sub (t u : Time) : Z :=
  Z.max minDuration (Z.min maxDuration (t - u)).

End time.

(** Modelled from the spec: the sentinel [Permanent] of section 3 ("a
    sentinel value Permanent means no expiration"); its declaration is in
    the node's source file, which is not among the sources. It is taken to
    be the zero instant. *)
Definition Permanent : time.Time := 0%Z.

(** ** Errors *)

(** Modelled from the spec: the package [etcdErr] is not among the
    sources; an error is built by [NewError] from a numeric code and a
    cause, and the codes are those of the error taxonomy of section 6. *)
Record Error : Type := NewError { ErrorCode : Z; Cause : string }.

Definition EcodeKeyNotFound : Z := 100.
Definition EcodeTestFailed : Z := 101.
Definition EcodeNodeExist : Z := 102.
Definition EcodeNotFile : Z := 104.
Definition EcodeNotDir : Z := 105.
Definition EcodeDirNotEmpty : Z := 106.
Definition EcodePermissionDenied : Z := 107.

#[global] Instance Error_eq_dec : EqDecision Error.
Proof. solve_decision. Defined.

(** ** Nodes *)

(** Modelled from the spec: the [Node] struct of section 3; its source
    file is not among the sources. [Children] is [None] for a file (the
    nil map) and the children map for a directory. The parent
    back-reference is not stored: a node is reached from the root. In
    place of the [stopExpire] channel, [Expirers] counts the Expire
    goroutines that are armed for the node and have neither been
    cancelled nor fired. *)
Inductive Node : Type := mkNode {
  Path : string;
  CreateIndex : N;
  CreateTerm : N;
  ModifiedIndex : N;
  ModifiedTerm : N;
  ExpireTime : time.Time;
  ACL : string;
  Value : string;
  Children : option (gmap string Node);
  Expirers : nat
}.

Definition with_Children (cs : option (gmap string Node)) (n : Node) : Node :=
  mkNode (Path n) (CreateIndex n) (CreateTerm n) (ModifiedIndex n)
    (ModifiedTerm n) (ExpireTime n) (ACL n) (Value n) cs (Expirers n).

Definition with_ExpireTime (t : time.Time) (n : Node) : Node :=
  mkNode (Path n) (CreateIndex n) (CreateTerm n) (ModifiedIndex n)
    (ModifiedTerm n) t (ACL n) (Value n) (Children n) (Expirers n).

Definition with_ACL (acl : string) (n : Node) : Node :=
  mkNode (Path n) (CreateIndex n) (CreateTerm n) (ModifiedIndex n)
    (ModifiedTerm n) (ExpireTime n) acl (Value n) (Children n) (Expirers n).

Definition with_Expirers (k : nat) (n : Node) : Node :=
  mkNode (Path n) (CreateIndex n) (CreateTerm n) (ModifiedIndex n)
    (ModifiedTerm n) (ExpireTime n) (ACL n) (Value n) (Children n) k.

(** Modelled from the spec: [newFile] and [newDir] (section 3 and the
    first scenario of section 8: a created node has its modified index and
    term equal to its created ones). *)
Definition newFile (nodePath value : string) (createIndex createTerm : N)
    (acl : string) (expireTime : time.Time) : Node :=
  mkNode nodePath createIndex createTerm createIndex createTerm expireTime
    acl value None 0.

Definition newDir (nodePath : string) (createIndex createTerm : N)
    (acl : string) (expireTime : time.Time) : Node :=
  mkNode nodePath createIndex createTerm createIndex createTerm expireTime
    acl "" (Some ∅) 0.

(** Modelled from the spec: [n.IsDir()], the node's kind. *)
Definition IsDir (n : Node) : bool :=
  match Children n with Some _ => true | None => false end.

(** Modelled from the spec: [n.IsHidden()], "a node whose last path
    segment starts with [_]". *)
Definition IsHidden (n : Node) : bool :=
  match snd (path.Split (Path n)) with
  | String c _ => bool_decide (c = "_"%char)
  | EmptyString => false
  end.

(** [n.Children[name]]: a lookup in the nil map of a file finds nothing. *)
Definition child (n : Node) (name : string) : option Node :=
  match Children n with
  | Some cs => cs !! name
  | None => None
  end.

(** Modelled from the spec: [n.Write(value, index, term)]. Section 4.4
    has, for a file, "if value is non-empty, replace it; always update
    modified_index, modified_term", and [Update] hands its value to
    [Write] as it is. *)
Definition Write (value : string) (index term : N) (n : Node) : Node :=
  mkNode (Path n) (CreateIndex n) (CreateTerm n) index term (ExpireTime n)
    (ACL n) (if decide (value = "") then Value n else value)
    (Children n) (Expirers n).

(** Modelled from the spec: [go n.Expire()] arms one more Expirer for the
    node; [n.stopExpire <- true] cancels one, and "canceling a
    non-existent timer is a no-op" (section 4.8). Timers that fire are
    outside this model. *)
Definition arm (n : Node) : Node := with_Expirers (S (Expirers n)) n.
Definition cancel (n : Node) : Node := with_Expirers (pred (Expirers n)) n.

(** The node reached from [n] through the names [loc]. *)
Fixpoint get_at (n : Node) (loc : list string) : option Node :=
  match loc with
  | [] => Some n
  | name :: rest =>
      match child n name with
      | Some c => get_at c rest
      | None => None
      end
  end.

(** The tree [n] with [f] applied to the node at [loc], in place. *)
Fixpoint alter_at (f : Node → Node) (loc : list string) (n : Node) : Node :=
  match loc with
  | [] => f n
  | name :: rest => with_Children (alter (alter_at f rest) name <$> Children n) n
  end.

(** [n.Children[name] = c]. *)
Definition put_child (name : string) (c : Node) (n : Node) : Node :=
  with_Children (insert name c <$> Children n) n.

(** [delete(n.Children, name)]. *)
Definition drop_child (name : string) (n : Node) : Node :=
  with_Children (delete name <$> Children n) n.

(** A [*Node] found by walking: where it is, and the node read there. *)
Definition NodePtr : Type := list string * Node.

(** ** Events *)

Module KeyValuePair.

(** Modelled from the spec: one entry of a directory listing, "an ordered
    list of (key, value, is_directory) tuples; recursive variants embed
    nested lists". *)
Inductive t : Type := mk {
  Key : string;
  Value : string;
  Dir : bool;
  KVPairs : list t
}.

(** The order of [sort.Sort] on a listing: by key. *)
Definition le (a b : t) : Prop := String.leb (Key a) (Key b).

#[global] Instance le_dec : RelDecision le.
Proof. intros a b. unfold le. apply _. Defined.

End KeyValuePair.

Module Event.

Inductive action : Type := Get | Create | Update | Delete | TestAndSet | Expire.

(** Modelled from the spec: the [Event] of section 3; the fields are the
    ones the file system assigns. [Expiration] holds the instant that the
    Go pointer [&n.ExpireTime] shows when the event is built. *)
Record t : Type := mk {
  Action : action;
  Key : string;
  PrevValue : string;
  Value : string;
  Dir : bool;
  KVPairs : list KeyValuePair.t;
  Expiration : option time.Time;
  TTL : Z;
  Index : N;
  Term : N
}.

Definition with_PrevValue (v : string) (e : t) : t :=
  mk (Action e) (Key e) v (Value e) (Dir e) (KVPairs e) (Expiration e)
    (TTL e) (Index e) (Term e).

Definition with_Value (v : string) (e : t) : t :=
  mk (Action e) (Key e) (PrevValue e) v (Dir e) (KVPairs e) (Expiration e)
    (TTL e) (Index e) (Term e).

Definition with_Dir (d : bool) (e : t) : t :=
  mk (Action e) (Key e) (PrevValue e) (Value e) d (KVPairs e) (Expiration e)
    (TTL e) (Index e) (Term e).

Definition with_KVPairs (l : list KeyValuePair.t) (e : t) : t :=
  mk (Action e) (Key e) (PrevValue e) (Value e) (Dir e) l (Expiration e)
    (TTL e) (Index e) (Term e).

(** [e.Expiration = &n.ExpireTime; e.TTL = ...]. *)
Definition with_Expiration (x : time.Time) (ttl : Z) (e : t) : t :=
  mk (Action e) (Key e) (PrevValue e) (Value e) (Dir e) (KVPairs e) (Some x)
    ttl (Index e) (Term e).

End Event.

(** Modelled from the spec: [newEvent(action, key, index, term)]. *)
Definition newEvent (a : Event.action) (key : string) (index term : N)
  : Event.t :=
  Event.mk a key "" "" false [] None 0 index term.

(** [int64(expireTime.Sub(time.Now()) / time.Second)]. *)
Definition ttl_seconds (expireTime now : time.Time) : Z :=
  Z.quot (time.Sub expireTime now) time.Second.

(** Modelled from the spec: [n.List()], the children of a directory, in
    the order in which the map is ranged over. *)
Definition List (n : Node) : list Node :=
  match Children n with
  | Some cs => map_fold (λ _ c acc, c :: acc) [] cs
  | None => []
  end.

(** Modelled from the spec: [n.Pair(recursive, sorted)] (section 4.2):
    hidden children are left out, a child directory has its own listing
    only when [recursive], every level is sorted when [sorted]. *)
Fixpoint Pair (n : Node) (recursive sorted : bool) : KeyValuePair.t :=
  match Children n with
  | None => KeyValuePair.mk (Path n) (Value n) false []
  | Some cs =>
      if recursive then
        let pairs :=
          map_fold (λ _ c acc,
            if IsHidden c then acc else Pair c recursive sorted :: acc) [] cs in
        KeyValuePair.mk (Path n) "" true
          (if sorted then merge_sort KeyValuePair.le pairs else pairs)
      else KeyValuePair.mk (Path n) "" true []
  end.

(** ** The file system and its monad *)

(** Modelled from the spec: what the watcher hub is handed, in order; the
    hub's source file is not among the sources. *)
Inductive Notification : Type :=
  | notified (e : Event.t)
  | notifiedWithPath (e : Event.t) (p : string) (deleted : bool).

(** The [FileSystem] struct. [WatcherHub] stands for the hub by the
    notifications it has received; the [EventHistory] field is never used
    by these methods. *)
Record FileSystem : Type := mkFileSystem {
  Root : Node;
  WatcherHub : list Notification;
  Index : N;
  Term : N
}.

Definition with_Root (r : Node) (fs : FileSystem) : FileSystem :=
  mkFileSystem r (WatcherHub fs) (Index fs) (Term fs).

(** The outcome of a call: a value, an error returned, or a panic of the
    Go run time. *)
Inductive result (A : Type) : Type :=
  | Ok (a : A)
  | Err (e : Error)
  | Panic.
Arguments Ok {A} a.
Arguments Err {A} e.
Arguments Panic {A}.

Definition M (A : Type) : Type := FileSystem → FileSystem * result A.

Definition ret {A} (a : A) : M A := λ fs, (fs, Ok a).
Definition fail {A} (e : Error) : M A := λ fs, (fs, Err e).
Definition panic {A} : M A := λ fs, (fs, Panic).

Definition bind {A B} (c : M A) (k : A → M B) : M B :=
  λ fs,
    match c fs with
    | (fs', Ok a) => k a fs'
    | (fs', Err e) => (fs', Err e)
    | (fs', Panic) => (fs', Panic)
    end.

Notation "x <- c ;; k" := (bind c (λ x, k))
  (at level 63, c at next level, right associativity).
Notation "c ;;; k" := (bind c (λ _, k))
  (at level 63, right associativity).

(** Reading the fields [fs.Index] and [fs.Term]. *)
Definition getIndex : M N := λ fs, (fs, Ok (Index fs)).
Definition getTerm : M N := λ fs, (fs, Ok (Term fs)).

(** [fs.Index, fs.Term = index, term]. *)
Definition setIndexTerm (index term : N) : M unit :=
  λ fs, (mkFileSystem (Root fs) (WatcherHub fs) index term, Ok tt).

(** A change of the node behind a pointer, in place; the pointer is
    returned with the node as it is afterwards. *)
Definition mutate (p : NodePtr) (f : Node → Node) : M NodePtr :=
  λ fs, (with_Root (alter_at f p.1 (Root fs)) fs, Ok (p.1, f p.2)).

(** [fs.WatcherHub.notify(e)] and [fs.WatcherHub.notifyWithPath]. *)
Definition notify (e : Event.t) : M unit :=
  λ fs, (mkFileSystem (Root fs) (WatcherHub fs ++ [notified e])%list (Index fs)
           (Term fs), Ok tt).

Definition notifyWithPath (e : Event.t) (p : string) (deleted : bool)
  : M unit :=
  λ fs, (mkFileSystem (Root fs) (WatcherHub fs ++ [notifiedWithPath e p deleted])%list
           (Index fs) (Term fs), Ok tt).

(** ** Walking the tree *)

(** The loop of [walk] over the components after the first: an empty
    component ends the walk at the current node. *)
Fixpoint walk_from (components : list string)
    (walkFunc : NodePtr → string → M NodePtr) (curr : NodePtr) : M NodePtr :=
  match components with
  | [] => ret curr
  | c :: rest =>
      if decide (c = "") then ret curr
      else curr' <- walkFunc curr c ;; walk_from rest walkFunc curr'
  end.

(** [fs.walk(nodePath, walkFunc)]. *)
Definition walk (nodePath : string)
    (walkFunc : NodePtr → string → M NodePtr) : M NodePtr :=
  λ fs, walk_from (tail (strings.Split nodePath)) walkFunc ([], Root fs) fs.

(** The [walkFunc] of [InternalGet]. *)
Definition getChild (parent : NodePtr) (name : string) : M NodePtr :=
  if negb (IsDir parent.2) then fail (NewError EcodeNotDir (Path parent.2))
  else
    match child parent.2 name with
    | Some c => ret ((parent.1 ++ [name])%list, c)
    | None =>
        fail (NewError EcodeKeyNotFound (path.Join [Path parent.2; name]))
    end.

(** [fs.InternalGet(nodePath, index, term)]. *)
Definition InternalGet (nodePath : string) (index term : N) : M NodePtr :=
  setIndexTerm index term ;;; walk nodePath getChild.

(** [fs.checkDir(parent, dirName)]: the directory [dirName] under
    [parent], made if it is missing. Assigning to the nil map of a file
    panics. *)
Definition checkDir (parent : NodePtr) (dirName : string) : M NodePtr :=
  match child parent.2 dirName with
  | Some subDir => ret ((parent.1 ++ [dirName])%list, subDir)
  | None =>
      index <- getIndex ;;
      term <- getTerm ;;
      let n := newDir (path.Join [Path parent.2; dirName]) index term
                 (ACL parent.2) Permanent in
      if IsDir parent.2 then
        mutate parent (put_child dirName n) ;;;
        ret ((parent.1 ++ [dirName])%list, n)
      else panic
  end.

(** ** Runes

    [for _, char := range perm] reads the string rune by rune, decoding
    UTF-8, and [string(char)] encodes a rune again. *)

Module utf8.

Definition RuneError : N := 65533.
Definition MaxRune : N := 1114111.
Definition surrogateMin : N := 55296.
Definition surrogateMax : N := 57343.

(** The bytes of a string, and the string of a sequence of bytes. *)
Definition bytes (s : string) : list N :=
  N_of_ascii <$> list_ascii_of_string s.

Definition of_bytes (l : list N) : string :=
  string_of_list_ascii (ascii_of_N <$> l).

(** A continuation byte, from 0x80 to 0xBF. *)
Definition is_cont (b : N) : bool := (128 <=? b)%N && (b <=? 191)%N.

(** The rune at the head of a string and its width in bytes, as the
    [range] loop reads them: a byte below 0x80 is its own rune, a longer
    encoding is accepted when it is complete, not over long, not a
    surrogate and not above [MaxRune]; anything else is [RuneError] of
    width one. *)
Definition decoderune (s : list N) : N * nat :=
  let invalid := (RuneError, 1%nat) in
  match s with
  | [] => invalid
  | s0 :: s' =>
      if (s0 <? 128)%N then (s0, 1%nat)
      else if (192 <=? s0)%N && (s0 <? 224)%N then
        match s' with
        | s1 :: _ =>
            if is_cont s1 then
              let r := N.lor (N.shiftl (N.land s0 31) 6) (N.land s1 63) in
              if (127 <? r)%N then (r, 2%nat) else invalid
            else invalid
        | _ => invalid
        end
      else if (224 <=? s0)%N && (s0 <? 240)%N then
        match s' with
        | s1 :: s2 :: _ =>
            if is_cont s1 && is_cont s2 then
              let r := N.lor (N.lor (N.shiftl (N.land s0 15) 12)
                                (N.shiftl (N.land s1 63) 6))
                         (N.land s2 63) in
              if (2047 <? r)%N
                 && negb ((surrogateMin <=? r)%N && (r <=? surrogateMax)%N)
              then (r, 3%nat) else invalid
            else invalid
        | _ => invalid
        end
      else if (240 <=? s0)%N && (s0 <? 248)%N then
        match s' with
        | s1 :: s2 :: s3 :: _ =>
            if is_cont s1 && is_cont s2 && is_cont s3 then
              let r := N.lor (N.lor (N.lor (N.shiftl (N.land s0 7) 18)
                                       (N.shiftl (N.land s1 63) 12))
                                (N.shiftl (N.land s2 63) 6))
                         (N.land s3 63) in
              if (65535 <? r)%N && (r <=? MaxRune)%N
              then (r, 4%nat) else invalid
            else invalid
        | _ => invalid
        end
      else invalid
  end.

(** The runes of a sequence of bytes, [skip] bytes of the rune read last
    being still to pass. *)
Fixpoint range_from (skip : nat) (s : list N) : list N :=
  match s with
  | [] => []
  | _ :: s' =>
      match skip with
      | S k => range_from k s'
      | O =>
          let rw := decoderune s in
          rw.1 :: range_from (pred rw.2) s'
      end
  end.

(** The runes that [for _, char := range s] yields, in order. *)
Definition range (s : string) : list N := range_from 0 (bytes s).

(** The UTF-8 encoding of a rune; a surrogate or a value above [MaxRune]
    is encoded as [RuneError]. *)
Definition encoderune (r : N) : list N :=
  let three (r : N) :=
    [N.lor 224 (N.shiftr r 12);
     N.lor 128 (N.land (N.shiftr r 6) 63);
     N.lor 128 (N.land r 63)] in
  if (r <=? 127)%N then [r]
  else if (r <=? 2047)%N then
    [N.lor 192 (N.shiftr r 6); N.lor 128 (N.land r 63)]
  else if (MaxRune <? r)%N || ((surrogateMin <=? r)%N && (r <=? surrogateMax)%N)
  then three RuneError
  else if (r <=? 65535)%N then three r
  else
    [N.lor 240 (N.shiftr r 18);
     N.lor 128 (N.land (N.shiftr r 12) 63);
     N.lor 128 (N.land (N.shiftr r 6) 63);
     N.lor 128 (N.land r 63)].

(** [string(char)] for a rune [char]. *)
Definition string_of_rune (r : N) : string := of_bytes (encoderune r).

End utf8.

(** ** The ACL adapter *)

Definition getUser : string := "admin".

(** The loop of [checkPerm] over the runes of [perm] that are left. *)
Fixpoint checkPerm_from (aclName perm : string) (rest : list N) : M unit :=
  match rest with
  | [] => ret tt
  | char :: rest' =>
      let user := getUser in
      index <- getIndex ;;
      term <- getTerm ;;
      λ fs,
        match InternalGet
                (path.Join ["/ACL"; aclName; utf8.string_of_rune char; user])
                index term fs with
        | (fs', Ok _) => checkPerm_from aclName perm rest' fs'
        | (fs', Err _) => (fs', Err (NewError EcodePermissionDenied perm))
        | (fs', Panic) => (fs', Panic)
        end
  end.

(** [fs.checkPerm(aclName, perm)]. *)
Definition checkPerm (aclName perm : string) : M unit :=
  checkPerm_from aclName perm (utf8.range perm).

(** [fs.hasPerm(n, perm, recursive)]. *)
Fixpoint hasPerm (n : Node) (perm : string) (recursive : bool) : M unit :=
  checkPerm (ACL n) perm ;;;
  match Children n with
  | Some cs =>
      if recursive then
        map_fold (λ _ c (others : M unit),
          if IsHidden c then others
          else hasPerm c perm recursive ;;; others) (ret tt) cs
      else ret tt
  | None => ret tt
  end.

(** The loop of [hasPermOnParent] over the names before the last one. *)
Fixpoint hasPermOnParent_from (names : list string) (perm : string)
    (curNode : Node) : M unit :=
  match names with
  | [] => ret tt
  | nodeName :: rest =>
      match child curNode nodeName with
      | None => checkPerm (ACL curNode) perm
      | Some c => hasPermOnParent_from rest perm c
      end
  end.

(** [fs.hasPermOnParent(nodePath, perm)]. *)
Definition hasPermOnParent (nodePath perm : string) : M unit :=
  λ fs,
    hasPermOnParent_from (removelast (tail (strings.Split nodePath))) perm
      (Root fs) fs.

(** ** Operations on nodes that change the tree *)

(** Modelled from the spec: [d.Add(n)]; "children: mapping from child name
    (last path component) to child Node". Adding under a file fails with
    ENotDir, adding a name that is taken fails with ENodeExists. *)
Definition Add (d : NodePtr) (n : Node) : M unit :=
  let name := (path.Split (Path n)).2 in
  match Children d.2 with
  | None => fail (NewError EcodeNotDir (Path d.2))
  | Some cs =>
      match cs !! name with
      | Some _ => fail (NewError EcodeNodeExist (Path n))
      | None => mutate d (put_child name n) ;;; ret tt
      end
  end.

(** The paths of a subtree, children before their parent. *)
Fixpoint postorder (n : Node) : list string :=
  match Children n with
  | Some cs => (map_fold (λ _ c acc, postorder c ++ acc)%list [] cs ++ [Path n])%list
  | None => [Path n]
  end.

(** A list without its last element, and that element. *)
Fixpoint split_last (l : list string) : option (list string * string) :=
  match l with
  | [] => None
  | [x] => Some ([], x)
  | x :: l' =>
      match split_last l' with
      | Some (init, y) => Some (x :: init, y)
      | None => None
      end
  end.

(** Modelled from the spec: [n.Remove(recursive, callback)] (section 4.6).
    A directory is removed only when [recursive] ("If the node is a
    directory, recursive must be true to delete it"), the root never; the
    callback is called for every node of the subtree, children first, and
    the node is detached from its parent. *)
Definition Remove (n : NodePtr) (recursive : bool)
    (callback : string → M unit) : M unit :=
  if IsDir n.2 && negb recursive then
    fail (NewError EcodeDirNotEmpty (Path n.2))
  else
    match split_last n.1 with
    | None => fail (NewError EcodeDirNotEmpty (Path n.2))
    | Some (parent, name) =>
        foldr (λ p rest, callback p ;;; rest) (ret tt) (postorder n.2) ;;;
        λ fs, (with_Root (alter_at (drop_child name) parent (Root fs)) fs, Ok tt)
    end.

(** ** The methods of the file system *)

(** [fs.Get(nodePath, recursive, sorted, index, term)]. *)
Definition Get (nodePath : string) (recursive sorted : bool) (index term : N)
  : M Event.t :=
  let nodePath := pathCleaning ("/" ++ nodePath) in
  n <- InternalGet nodePath index term ;;
  hasPerm n.2 "r" recursive ;;;
  let e := newEvent Event.Get nodePath index term in
  if IsDir n.2 then
    let pairs :=
      (λ c, Pair c recursive sorted) <$>
        filter (λ c, IsHidden c = false) (List n.2) in
    ret (Event.with_KVPairs
           (if sorted then merge_sort KeyValuePair.le pairs else pairs)
           (Event.with_Dir true e))
  else ret (Event.with_Value (Value n.2) e).

(** [fs.InternalCreate]: "a create function without ACL permission
    check". The arguments [index] and [term] are not read: the node and
    the event take the index and term stored in the file system. [now] is
    what [time.Now()] returns. *)
Definition InternalCreate (nodePath value : string) (expireTime : time.Time)
    (index term : N) (now : time.Time) : M Event.t :=
  let dir := (path.Split nodePath).1 in
  d <- walk dir checkDir ;;
  fsIndex <- getIndex ;;
  fsTerm <- getTerm ;;
  let e := newEvent Event.Create nodePath fsIndex fsTerm in
  let e := if decide (value ≠ "") then Event.with_Value value e
           else Event.with_Dir true e in
  let n := if decide (value ≠ "")
           then newFile nodePath value fsIndex fsTerm (ACL d.2) expireTime
           else newDir nodePath fsIndex fsTerm (ACL d.2) expireTime in
  Add d n ;;;
  e <- (if decide (expireTime ≠ Permanent) then
          mutate ((d.1 ++ [(path.Split nodePath).2])%list, n) arm ;;;
          ret (Event.with_Expiration expireTime
                 (ttl_seconds expireTime now) e)
        else ret e) ;;
  notify e ;;;
  ret e.

(** [fs.Create(nodePath, value, expireTime, index, term)]. *)
Definition Create (nodePath value : string) (expireTime : time.Time)
    (index term : N) (now : time.Time) : M Event.t :=
  let nodePath := pathCleaning ("/" ++ nodePath) in
  hasPermOnParent nodePath "w" ;;;
  λ fs,
    match InternalGet nodePath index term fs with
    | (fs', Ok _) => (fs', Err (NewError EcodeNodeExist nodePath))
    | (fs', Err err) =>
        if decide (ErrorCode err = EcodeNotDir) then (fs', Err err)
        else InternalCreate nodePath value expireTime index term now fs'
    | (fs', Panic) => (fs', Panic)
    end.

(** [fs.CreateDir(nodePath, expireTime, index, term)]. *)
Definition CreateDir (nodePath : string) (expireTime : time.Time)
    (index term : N) (now : time.Time) : M Event.t :=
  Create nodePath "" expireTime index term now.

(** [fs.Update(nodePath, value, expireTime, index, term)]. *)
Definition Update (nodePath value : string) (expireTime : time.Time)
    (index term : N) (now : time.Time) : M Event.t :=
  let nodePath := pathCleaning ("/" ++ nodePath) in
  n <- InternalGet nodePath index term ;;
  hasPerm n.2 "w" false ;;;
  fsIndex <- getIndex ;;
  fsTerm <- getTerm ;;
  let e := newEvent Event.Update nodePath fsIndex fsTerm in
  en <- (if IsDir n.2 then
           if decide (value ≠ "") then fail (NewError EcodeNotFile nodePath)
           else ret (e, n)
         else
           let e := Event.with_PrevValue (Value n.2) e in
           let e := if decide (value ≠ "") then Event.with_Value value e
                    else e in
           n' <- mutate n (Write value index term) ;;
           ret (e, n')) ;;
  let e := en.1 in
  n <- (if decide (ExpireTime en.2.2 ≠ Permanent ∧ expireTime ≠ Permanent)
        then mutate en.2 cancel else ret en.2) ;;
  e <- (if decide (expireTime ≠ Permanent) then
          n <- mutate n (with_ExpireTime expireTime) ;;
          mutate n arm ;;;
          ret (Event.with_Expiration expireTime
                 (ttl_seconds expireTime now) e)
        else ret e) ;;
  notify e ;;;
  ret e.

(** [%v] of a [uint64]: its decimal digits. *)
Definition decimal (n : N) : string := NilEmpty.string_of_uint (N.to_uint n).

(** [fs.TestAndSet(nodePath, prevValue, prevIndex, value, expireTime,
    index, term)]. [expireTime] is not read. *)
Definition TestAndSet (nodePath prevValue : string) (prevIndex : N)
    (value : string) (expireTime : time.Time) (index term : N) : M Event.t :=
  let nodePath := pathCleaning ("/" ++ nodePath) in
  f <- InternalGet nodePath index term ;;
  hasPerm f.2 "rw" false ;;;
  if IsDir f.2 then fail (NewError EcodeNotFile nodePath)
  else if decide (Value f.2 = prevValue ∨ ModifiedIndex f.2 = prevIndex) then
    let e := newEvent Event.TestAndSet nodePath index term in
    let e := Event.with_PrevValue (Value f.2) e in
    let e := Event.with_Value value e in
    mutate f (Write value index term) ;;;
    notify e ;;;
    ret e
  else
    let cause :=
      "[" ++ prevValue ++ "/" ++ Value f.2 ++ "] ["
          ++ decimal prevIndex ++ "/" ++ decimal (ModifiedIndex f.2) ++ "]" in
    fail (NewError EcodeTestFailed cause).

(** [fs.Delete(nodePath, recursive, index, term)]. *)
Definition Delete (nodePath : string) (recursive : bool) (index term : N)
  : M Event.t :=
  let nodePath := pathCleaning ("/" ++ nodePath) in
  n <- InternalGet nodePath index term ;;
  hasPermOnParent nodePath "w" ;;;
  (if recursive then hasPerm n.2 "w" recursive else ret tt) ;;;
  let e := newEvent Event.Delete nodePath index term in
  let e := if IsDir n.2 then Event.with_Dir true e
           else Event.with_PrevValue (Value n.2) e in
  Remove n recursive (λ p, notifyWithPath e p true) ;;;
  notify e ;;;
  ret e.

(** [New()]: the root directory with the ACL of the administrator, and the
    three grants of that ACL; [None] stands for the nil that is returned
    when a grant cannot be created. The grants are permanent, so that the
    clock is not read. *)
Definition New : option FileSystem :=
  let root := with_ACL "admin_aclname" (newDir "/" 0 0 "" Permanent) in
  let fs := mkFileSystem root [] 0 0 in
  let user := "admin" in
  match (InternalCreate ("/ACL/admin_aclname/r/" ++ user) "1" Permanent 1 1 0%Z ;;;
         InternalCreate ("/ACL/admin_aclname/w/" ++ user) "1" Permanent 1 1 0%Z ;;;
         InternalCreate ("/ACL/admin_aclname/c/" ++ user) "1" Permanent 1 1 0%Z)
          fs with
  | (fs', Ok _) => Some fs'
  | _ => None
  end.

(** ** The older ACL adapter *)

Module V0.

Definition getUserByCertSubj : string := "test".

(** [InternalGet] of the older file system, which cleans its path. *)
Definition InternalGet (nodePath : string) (index term : N) : M NodePtr :=
  InternalGet (path.Clean ("/" ++ nodePath)) index term.

(** The loop of [check_perm] over the runes of [perm] that are left.
    [get] is the method [InternalGet] of the file system that the adapter
    is compiled with: the sources have it with two file systems, the
    newest one and the older one. *)
Fixpoint check_perm_from (get : string → N → N → M NodePtr)
    (acl perm : string) (rest : list N) : M unit :=
  match rest with
  | [] => ret tt
  | char :: rest' =>
      let user := getUserByCertSubj in
      index <- getIndex ;;
      term <- getTerm ;;
      λ fs,
        match get (path.Join [acl; utf8.string_of_rune char; user])
                index term fs with
        | (fs', Ok _) => check_perm_from get acl perm rest' fs'
        | (fs', Err _) => (fs', Err (NewError EcodePermissionDenied perm))
        | (fs', Panic) => (fs', Panic)
        end
  end.

(** [fs.check_perm(acl, perm)]. *)
Definition check_perm (get : string → N → N → M NodePtr)
    (acl perm : string) : M unit :=
  check_perm_from get acl perm (utf8.range perm).

End V0.

(** ** What the claims read: operations as data, and the claimed match *)

(** An operation that the replication layer applies, with its arguments. *)
Inductive Op : Type :=
  | OpGet (nodePath : string) (recursive sorted : bool) (index term : N)
  | OpCreate (nodePath value : string) (expireTime : time.Time)
      (index term : N)
  | OpUpdate (nodePath value : string) (expireTime : time.Time)
      (index term : N)
  | OpTestAndSet (nodePath prevValue : string) (prevIndex : N)
      (value : string) (expireTime : time.Time) (index term : N)
  | OpDelete (nodePath : string) (recursive : bool) (index term : N).

(** The (index, term) pair that an operation supplies. *)
Definition op_index_term (op : Op) : N * N :=
  match op with
  | OpGet _ _ _ i t => (i, t)
  | OpCreate _ _ _ i t => (i, t)
  | OpUpdate _ _ _ i t => (i, t)
  | OpTestAndSet _ _ _ _ _ i t => (i, t)
  | OpDelete _ _ i t => (i, t)
  end.

(** Applying an operation at the instant [now]. *)
Definition apply (now : time.Time) (op : Op) : M Event.t :=
  match op with
  | OpGet p r s i t => Get p r s i t
  | OpCreate p v x i t => Create p v x i t now
  | OpUpdate p v x i t => Update p v x i t now
  | OpTestAndSet p pv pi v x i t => TestAndSet p pv pi v x i t
  | OpDelete p r i t => Delete p r i t
  end.

(** Whether an operation gets as far as its [InternalGet], which stores
    the pair: every operation does, but a Create that the check on the
    parent refuses, which returns before. *)
Definition stores_pair (op : Op) (fs : FileSystem) : bool :=
  match op with
  | OpCreate p _ _ _ _ =>
      match (hasPermOnParent (pathCleaning ("/" ++ p)) "w" fs).2 with
      | Ok _ => true
      | _ => false
      end
  | _ => true
  end.

(** The sequence of operations, applied in order whatever each returns. *)
Fixpoint apply_all (now : time.Time) (ops : list Op) (fs : FileSystem)
  : FileSystem :=
  match ops with
  | [] => fs
  | op :: rest => apply_all now rest (apply now op fs).1
  end.

(** The match condition of compare-and-swap in the words of section 4.5:
    an empty [prevValue] and a zero [prevIndex] are "don't care", at least
    one of the two is supplied, and what is supplied must match. *)
Definition claimed_match (prevValue : string) (prevIndex : N) (f : Node)
  : Prop :=
  (prevValue ≠ "" ∨ prevIndex ≠ 0%N) ∧
  (prevValue = "" ∨ Value f = prevValue) ∧
  (prevIndex = 0%N ∨ ModifiedIndex f = prevIndex).

(** The number of armed Expirers that section 4.4 asks for after an
    Update: any armed one is cancelled, and one is armed when the new
    expire time is not Permanent. *)
Definition claimed_Expirers (expireTime : time.Time) : nat :=
  if decide (expireTime ≠ Permanent) then 1 else 0.

(** A node has an armed Expirer exactly when it is not permanent, and then
    a single one. *)
Definition expirer_ok (n : Node) : Prop :=
  Expirers n = if decide (ExpireTime n ≠ Permanent) then 1 else 0.

(** The node that [Update] leaves in place of [n]. *)
Definition updated (value : string) (expireTime : time.Time) (index term : N)
    (n : Node) : Node :=
  let n1 := if IsDir n then n else Write value index term n in
  let n2 := if decide (ExpireTime n1 ≠ Permanent ∧ expireTime ≠ Permanent)
            then cancel n1 else n1 in
  if decide (expireTime ≠ Permanent)
  then arm (with_ExpireTime expireTime n2) else n2.

(** The components at which a walk stops: those before the first empty
    one. *)
Fixpoint walked (components : list string) : list string :=
  match components with
  | [] => []
  | c :: rest => if decide (c = "") then [] else c :: walked rest
  end.

(** Where [InternalGet] looks for a path. *)
Definition loc_of (nodePath : string) : list string :=
  walked (tail (strings.Split nodePath)).

(** Where [InternalCreate] puts the node of a path: under the directory
    of the path, by the last name. *)
Definition new_loc (nodePath : string) : list string :=
  (loc_of (path.Split nodePath).1 ++ [(path.Split nodePath).2])%list.

(** The size of a tree, for induction on nodes. *)
Fixpoint node_size (n : Node) : nat :=
  match Children n with
  | Some cs => S (map_fold (λ _ c acc, node_size c + acc) 0 cs)
  | None => 1
  end.

(** ** Notions for the proofs *)

(** [c] changes nothing and does not panic. *)
Definition reads {A} (c : M A) : Prop :=
  ∀ fs, (c fs).1 = fs ∧ (c fs).2 ≠ Panic.

(** [c] returns nothing but success or the refusal of [perm]. *)
Definition refuses (perm : string) (c : M unit) : Prop :=
  ∀ fs, (c fs).2 = Ok tt ∨ (c fs).2 = Err (NewError EcodePermissionDenied perm).

(** Every rune of [rest] is granted to [user] under the ACL [acl]: the
    grant resolves in the tree. *)
Fixpoint granted (root : Node) (acl user : string) (rest : list N) : Prop :=
  match rest with
  | [] => True
  | char :: rest' =>
      is_Some (get_at root
                 (loc_of (path.Join ["/ACL"; acl; utf8.string_of_rune char;
                                     user]))) ∧
      granted root acl user rest'
  end.

#[global] Instance granted_dec root acl user rest :
  Decision (granted root acl user rest).
Proof. induction rest; simpl; apply _. Defined.

(** The (Index, Term) pair stored in the file system. *)
Definition clock (fs : FileSystem) : N * N := (Index fs, Term fs).

(** [c] leaves the stored pair as it is; [c] sets it to [it]. *)
Definition keeps_clock {A} (c : M A) : Prop :=
  ∀ fs, clock (c fs).1 = clock fs.

Definition sets_clock {A} (it : N * N) (c : M A) : Prop :=
  ∀ fs, clock (c fs).1 = it.

(** ** States for the examples *)

(** The file system in which [New] creates its grants. *)
Definition bare : FileSystem :=
  mkFileSystem (with_ACL "admin_aclname" (newDir "/" 0 0 "" Permanent)) [] 0 0.

(** The file system that [New] returns. *)
Definition fresh : FileSystem := default bare New.

(** The order on (index, term) pairs, component by component. *)
Definition pair_le (a b : N * N) : Prop := (a.1 ≤ b.1)%N ∧ (a.2 ≤ b.2)%N.

(** The result of [c] depends on the tree only. *)
Definition root_only {A} (c : M A) : Prop :=
  ∀ fs fs', Root fs = Root fs' → (c fs).2 = (c fs').2.

(** The event that [Update] returns for the node [n] at [key]. *)
Definition updated_event (key value : string) (expireTime : time.Time)
    (index term : N) (now : time.Time) (n : Node) : Event.t :=
  let e := newEvent Event.Update key index term in
  let e := if IsDir n then e
           else
             let e := Event.with_PrevValue (Value n) e in
             if decide (value ≠ "") then Event.with_Value value e else e in
  if decide (expireTime ≠ Permanent)
  then Event.with_Expiration expireTime (ttl_seconds expireTime now) e
  else e.

(** The diagnostic of a failed compare-and-swap:
    [fmt.Sprintf("[%v/%v] [%v/%v]", prevValue, f.Value, prevIndex,
    f.ModifiedIndex)]. *)
Definition cause_of (prevValue : string) (prevIndex : N) (f : Node) : string :=
  "[" ++ prevValue ++ "/" ++ Value f ++ "] ["
      ++ decimal prevIndex ++ "/" ++ decimal (ModifiedIndex f) ++ "]".

(** The file system after a Create of the file [/k] with value [v1] at
    (1, 1), and after a Create of the file [/tmp] with value [v] that
    expires at the instant 100, at (10, 1). *)
Definition with_k : FileSystem :=
  (Create "/k" "v1" Permanent 1 1 0%Z fresh).1.

Definition with_tmp : FileSystem :=
  (Create "/tmp" "v" 100%Z 10 1 0%Z fresh).1.

(** Two nodes of one kind that differ in their children at most. *)
Definition same_meta (n m : Node) : Prop :=
  with_Children None n = with_Children None m ∧ IsDir n = IsDir m.

(** A directory as [checkDir] makes it under [parent], at the stored
    index and term: permanent, with no Expirer, with the ACL of its
    parent. *)
Definition made_dir (index term : N) (parent d : Node) : Prop :=
  IsDir d = true ∧ ExpireTime d = Permanent ∧ Expirers d = 0 ∧
  ACL d = ACL parent ∧ CreateIndex d = index ∧ CreateTerm d = term.

(** There is a file on the way to [loc]: a strict prefix of [loc] leads
    to a node that is not a directory. *)
Definition file_on_the_way (root : Node) (loc : list string) : Prop :=
  ∃ k file, (k < List.length loc)%nat ∧
            get_at root (take k loc) = Some file ∧ IsDir file = false.

(** The node that [InternalCreate] adds under a directory with the ACL
    [acl], and the event it returns. *)
Definition created (nodePath value : string) (expireTime : time.Time)
    (index term : N) (acl : string) : Node :=
  let n := if decide (value ≠ "")
           then newFile nodePath value index term acl expireTime
           else newDir nodePath index term acl expireTime in
  if decide (expireTime ≠ Permanent) then arm n else n.

Definition created_event (nodePath value : string) (expireTime : time.Time)
    (index term : N) (now : time.Time) : Event.t :=
  let e := newEvent Event.Create nodePath index term in
  let e := if decide (value ≠ "") then Event.with_Value value e
           else Event.with_Dir true e in
  if decide (expireTime ≠ Permanent)
  then Event.with_Expiration expireTime (ttl_seconds expireTime now) e
  else e.

(** A string without a slash; a name: such a string that is not empty. *)
Fixpoint no_slash (s : string) : Prop :=
  match s with
  | EmptyString => True
  | String c s' => c ≠ "/"%char ∧ no_slash s'
  end.

Definition is_name (s : string) : Prop := s ≠ "" ∧ no_slash s.

(** Where the older [InternalGet] looks for a path. *)
Definition loc_of0 (nodePath : string) : list string :=
  loc_of (path.Clean ("/" ++ nodePath)).

(** The same for the older adapter, whose grants are under the ACL's own
    path; [locate] is where the [InternalGet] in use looks for a path. *)
Fixpoint granted0 (locate : string → list string) (root : Node)
    (acl user : string) (rest : list N) : Prop :=
  match rest with
  | [] => True
  | char :: rest' =>
      is_Some (get_at root
                 (locate (path.Join [acl; utf8.string_of_rune char; user]))) ∧
      granted0 locate root acl user rest'
  end.

#[global] Instance granted0_dec locate root acl user rest :
  Decision (granted0 locate root acl user rest).
Proof. induction rest; simpl; apply _. Defined.



(** [n.ACL = acl] on the node that [InternalGet] returns for [nodePath],
    as the tests set the ACL of a node. *)
Definition setACL (nodePath acl : string) : M unit :=
  n <- InternalGet nodePath 1 1 ;;
  mutate n (with_ACL acl) ;;;
  ret tt.

(** The file system of the test of Delete: the ACL [acl_name] grants
    reading only, the file [/sample/gao] is created, and then the
    directory [/sample] is given the ACL [acl_name]. *)
Definition sample_read_only : FileSystem :=
  (setACL "/sample/" "acl_name"
     (Create "/sample/gao" "zhengao" Permanent 1 1 0%Z
        (Create "/ACL/acl_name/r/admin" "1" Permanent 1 1 0%Z fresh).1).1).1.

(** ** Further notions for the properties of the code *)

(** [file_on_the_way], computed along the walk. *)
Fixpoint file_before (n : Node) (loc : list string) : bool :=
  match loc with
  | [] => false
  | name :: rest =>
      negb (IsDir n) ||
      match child n name with
      | Some c => file_before c rest
      | None => false
      end
  end.

(** [Delete] without its check on the parent: the same method with the
    call of [hasPermOnParent] left out. *)
Definition Delete_without_parent_check (nodePath : string) (recursive : bool)
    (index term : N) : M Event.t :=
  let nodePath := pathCleaning ("/" ++ nodePath) in
  n <- InternalGet nodePath index term ;;
  (if recursive then hasPerm n.2 "w" recursive else ret tt) ;;;
  let e := newEvent Event.Delete nodePath index term in
  let e := if IsDir n.2 then Event.with_Dir true e
           else Event.with_PrevValue (Value n.2) e in
  Remove n recursive (λ p, notifyWithPath e p true) ;;;
  notify e ;;;
  ret e.



(** A component that [path.Clean] keeps: not empty, not [.] and not
    [..], and without a slash. *)
Definition is_clean_name (s : string) : Prop :=
  is_name s ∧ s ≠ "." ∧ s ≠ "..".

(** ** The path functions on examples *)

Example Split_abs : strings.Split "/a/b" = [""; "a"; "b"].
Proof. reflexivity. Qed.
Example Split_empty : strings.Split "" = [""].
Proof. reflexivity. Qed.
Example Clean_dots : path.Clean "/a//b/./c/../d/" = "/a/b/d".
Proof. reflexivity. Qed.
Example Clean_up : path.Clean "/../a/../.." = "/".
Proof. reflexivity. Qed.
Example Clean_rel : path.Clean "../a/../.." = "../..".
Proof. reflexivity. Qed.
Example Join_acl : path.Join ["/ACL"; "name"; "r"; "admin"] = "/ACL/name/r/admin".
Proof. reflexivity. Qed.
Example Join_skip : path.Join [""; "r"; "test"] = "r/test".
Proof. reflexivity. Qed.
Example path_Split_file : path.Split "/a/b/c" = ("/a/b/", "c").
Proof. reflexivity. Qed.
Example path_Split_top : path.Split "/a" = ("/", "a").
Proof. reflexivity. Qed.
Example pathCleaning_root : pathCleaning "//" = "".
Proof. reflexivity. Qed.
Example pathCleaning_dir : pathCleaning "//sample/" = "/sample".
Proof. reflexivity. Qed.

(** ** Runes on examples *)

Example range_rw : utf8.range "rw" = [114%N; 119%N].
Proof. reflexivity. Qed.
Example range_two_bytes : utf8.range (utf8.of_bytes [195; 169]%N) = [233%N].
Proof. reflexivity. Qed.
Example range_three_bytes :
  utf8.range (utf8.of_bytes [226; 130; 172]%N) = [8364%N].
Proof. reflexivity. Qed.
Example range_four_bytes :
  utf8.range (utf8.of_bytes [240; 159; 152; 128]%N) = [128512%N].
Proof. reflexivity. Qed.
Example range_invalid_byte :
  utf8.range (utf8.of_bytes [97; 255; 98]%N) = [97%N; utf8.RuneError; 98%N].
Proof. reflexivity. Qed.
Example range_over_long :
  utf8.range (utf8.of_bytes [192; 128]%N) = [utf8.RuneError; utf8.RuneError].
Proof. reflexivity. Qed.
Example range_surrogate :
  utf8.range (utf8.of_bytes [237; 160; 128]%N)
  = [utf8.RuneError; utf8.RuneError; utf8.RuneError].
Proof. reflexivity. Qed.
Example range_cut_short :
  utf8.range (utf8.of_bytes [195; 40]%N) = [utf8.RuneError; 40%N].
Proof. reflexivity. Qed.
Example string_of_rune_r : utf8.string_of_rune 114 = "r".
Proof. reflexivity. Qed.
Example string_of_rune_two_bytes :
  utf8.string_of_rune 233 = utf8.of_bytes [195; 169]%N.
Proof. reflexivity. Qed.
Example string_of_rune_error :
  utf8.string_of_rune utf8.RuneError = utf8.of_bytes [239; 191; 189]%N.
Proof. reflexivity. Qed.

(** On a string of bytes below 0x80 the runes are the bytes. *)
Lemma range_from_ascii (l : list N) :
  Forall (λ b, (b < 128)%N) l → utf8.range_from 0 l = l.
Proof.
  induction 1 as [|b l Hb _ IH]; [done|].
  cbn [utf8.range_from]. unfold utf8.decoderune.
  apply N.ltb_lt in Hb. rewrite Hb. simpl. by rewrite IH.
Qed.

Lemma range_ascii (s : string) :
  Forall (λ b, (b < 128)%N) (utf8.bytes s) → utf8.range s = utf8.bytes s.
Proof. apply range_from_ascii. Qed.

(** ** Reading and changing the tree *)

Lemma Node_eta (n : Node) :
  mkNode (Path n) (CreateIndex n) (CreateTerm n) (ModifiedIndex n)
    (ModifiedTerm n) (ExpireTime n) (ACL n) (Value n) (Children n)
    (Expirers n) = n.
Proof. by destruct n. Qed.

Lemma FileSystem_eta (fs : FileSystem) :
  mkFileSystem (Root fs) (WatcherHub fs) (Index fs) (Term fs) = fs.
Proof. by destruct fs. Qed.

Lemma get_at_app (n : Node) (l1 l2 : list string) :
  get_at n (l1 ++ l2) = get_at n l1 ≫= λ m, get_at m l2.
Proof.
  revert n. induction l1 as [|c l1 IH]; intros n; simpl; [done|].
  destruct (child n c); simpl; [apply IH | done].
Qed.

Lemma get_at_snoc (n m : Node) (l : list string) (name : string) :
  get_at n l = Some m → get_at n (l ++ [name]) = child m name.
Proof.
  intros H. rewrite get_at_app, H. simpl. by destruct (child m name).
Qed.

Lemma child_alter (f : Node → Node) (name name' : string) (n : Node) :
  child (with_Children (alter f name <$> Children n) n) name'
  = if decide (name = name') then f <$> child n name' else child n name'.
Proof.
  unfold child. simpl. destruct (Children n) as [cs|]; simpl.
  - rewrite lookup_alter. by case_decide; subst.
  - by case_decide.
Qed.

Lemma get_at_alter_at (f : Node → Node) (loc : list string) (r n : Node) :
  get_at r loc = Some n → get_at (alter_at f loc r) loc = Some (f n).
Proof.
  revert r. induction loc as [|c loc IH]; intros r; simpl.
  - by intros [= ->].
  - rewrite child_alter. rewrite decide_True by done.
    destruct (child r c) as [m|]; simpl; [apply IH | done].
Qed.

Lemma alter_at_missing (f : Node → Node) (loc : list string) (r : Node) :
  get_at r loc = None → alter_at f loc r = r.
Proof.
  revert r. induction loc as [|c loc IH]; intros r; simpl; [done|].
  unfold child. destruct r as [p ci ct mi mt x a v [cs|] k]; simpl; [|done].
  intros H. unfold with_Children. simpl. f_equal. f_equal.
  apply map_eq. intros i. rewrite lookup_alter. case_decide; [subst|done].
  destruct (cs !! i) as [m|]; simpl; [|done]. by rewrite IH.
Qed.

(** ** Induction on nodes *)

Lemma node_size_child (n c : Node) (name : string) :
  child n name = Some c → node_size c < node_size n.
Proof.
  unfold child. destruct n as [p ci ct mi mt x a v [cs|] k]; simpl; [|done].
  intros H. rewrite map_fold_foldr.
  apply elem_of_map_to_list in H.
  induction (map_to_list cs) as [|[k' c'] l IH]; simpl.
  - by apply elem_of_nil in H.
  - apply elem_of_cons in H as [[= <- <-]|H]; [lia|].
    specialize (IH H). lia.
Qed.

Lemma Node_children_ind (P : Node → Prop) :
  (∀ n, (∀ name c, child n name = Some c → P c) → P n) → ∀ n, P n.
Proof.
  intros step n. remember (node_size n) as k eqn:Hk.
  revert n Hk. induction k as [k IH] using lt_wf_ind. intros n ->.
  apply step. intros name c Hc. apply (IH (node_size c)); [|done].
  by eapply node_size_child.
Qed.

(** ** Calls that leave the file system as it is *)

Lemma reads_ret {A} (a : A) : reads (ret a).
Proof. by intros fs. Qed.

Lemma reads_fail {A} (e : Error) : reads (@fail A e).
Proof. by intros fs. Qed.

Lemma reads_bind {A B} (c : M A) (k : A → M B) :
  reads c → (∀ a, reads (k a)) → reads (bind c k).
Proof.
  intros Hc Hk fs. unfold bind. destruct (Hc fs) as [H1 H2].
  destruct (c fs) as [fs' [a|e|]]; simpl in *; subst; [apply Hk|done|done].
Qed.

Lemma reads_getChild (p : NodePtr) (name : string) : reads (getChild p name).
Proof.
  unfold getChild. destruct (negb _); [apply reads_fail|].
  destruct (child _ _); [apply reads_ret | apply reads_fail].
Qed.

Lemma reads_walk_from_getChild (cs : list string) (p : NodePtr) :
  reads (walk_from cs getChild p).
Proof.
  revert p. induction cs as [|c cs IH]; intros p; simpl; [apply reads_ret|].
  case_decide; [apply reads_ret|].
  apply reads_bind; [apply reads_getChild | done].
Qed.

(** What [InternalGet] does to the file system, whatever it returns. *)
Lemma InternalGet_state (nodePath : string) (index term : N) (fs : FileSystem) :
  (InternalGet nodePath index term fs).1
  = mkFileSystem (Root fs) (WatcherHub fs) index term.
Proof.
  unfold InternalGet, bind, setIndexTerm, walk. simpl.
  match goal with |- context [walk_from ?cs getChild ?p ?s] =>
    destruct (reads_walk_from_getChild cs p s) as [H _];
    destruct (walk_from cs getChild p s) as [fs' [a|e|]] end; by simpl in *.
Qed.

Lemma InternalGet_no_panic (nodePath : string) (index term : N) (fs : FileSystem) :
  (InternalGet nodePath index term fs).2 ≠ Panic.
Proof.
  unfold InternalGet, bind, setIndexTerm, walk. simpl.
  match goal with |- context [walk_from ?cs getChild ?p ?s] =>
    destruct (reads_walk_from_getChild cs p s) as [_ H];
    destruct (walk_from cs getChild p s) as [fs' [a|e|]] end; by simpl in *.
Qed.


Lemma bind_assoc {A B C} (c : M A) (k1 : A → M B) (k2 : B → M C)
    (fs : FileSystem) :
  bind (bind c k1) k2 fs = bind c (λ a, bind (k1 a) k2) fs.
Proof. unfold bind. by destruct (c fs) as [fs' [a|e|]]. Qed.

Lemma setIndexTerm_then {A} (index term : N) (c : M A) (fs : FileSystem) :
  (setIndexTerm index term ;;; c) fs
  = c (mkFileSystem (Root fs) (WatcherHub fs) index term).
Proof. reflexivity. Qed.

Lemma reads_walk_getChild (nodePath : string) : reads (walk nodePath getChild).
Proof. intros fs. apply reads_walk_from_getChild. Qed.


Lemma bind_Ok {A B} (c : M A) (k : A → M B) (fs fs' : FileSystem) (a : A) :
  c fs = (fs', Ok a) → bind c k fs = k a fs'.
Proof. intros H. unfold bind. by rewrite H. Qed.

Lemma bind_Err {A B} (c : M A) (k : A → M B) (fs fs' : FileSystem) (e : Error) :
  c fs = (fs', Err e) → bind c k fs = (fs', Err e).
Proof. intros H. unfold bind. by rewrite H. Qed.

(** ** What a walk finds *)

Lemma child_Some_IsDir (n c : Node) (name : string) :
  child n name = Some c → IsDir n = true.
Proof. unfold child, IsDir. by destruct (Children n). Qed.

(** A walk with [getChild] finds the node at the walked components, when
    there is one, and otherwise fails for a file or a name in the way. *)
Lemma walk_from_getChild_spec (cs : list string) (p : NodePtr) (fs : FileSystem) :
  match get_at p.2 (walked cs) with
  | Some n => walk_from cs getChild p fs = (fs, Ok ((p.1 ++ walked cs)%list, n))
  | None => ∃ e, walk_from cs getChild p fs = (fs, Err e) ∧
      (ErrorCode e = EcodeNotDir ∨ ErrorCode e = EcodeKeyNotFound)
  end.
Proof.
  revert p. induction cs as [|c cs IH]; intros [loc n]; simpl.
  - by rewrite app_nil_r.
  - case_decide; simpl; [by rewrite app_nil_r|].
    unfold bind, getChild. simpl.
    destruct (child n c) as [m|] eqn:Hc.
    + rewrite (child_Some_IsDir _ _ _ Hc). simpl.
      specialize (IH ((loc ++ [c])%list, m)). simpl in IH.
      by rewrite <- app_assoc in IH.
    + destruct (IsDir n); simpl; eexists; (split; [done|]); simpl; auto.
Qed.

Lemma InternalGet_found (nodePath : string) (index term : N)
    (fs : FileSystem) (n : Node) :
  get_at (Root fs) (loc_of nodePath) = Some n →
  InternalGet nodePath index term fs
  = (mkFileSystem (Root fs) (WatcherHub fs) index term, Ok (loc_of nodePath, n)).
Proof.
  intros H. unfold InternalGet, bind, setIndexTerm, walk. simpl.
  match goal with |- context [walk_from ?cs getChild ?p ?s] =>
    pose proof (walk_from_getChild_spec cs p s) as Hw end.
  simpl in Hw. unfold loc_of in H. by rewrite H in Hw.
Qed.

Lemma InternalGet_missing (nodePath : string) (index term : N) (fs : FileSystem) :
  get_at (Root fs) (loc_of nodePath) = None →
  ∃ e, InternalGet nodePath index term fs
       = (mkFileSystem (Root fs) (WatcherHub fs) index term, Err e) ∧
       (ErrorCode e = EcodeNotDir ∨ ErrorCode e = EcodeKeyNotFound).
Proof.
  intros H. unfold InternalGet, bind, setIndexTerm, walk. simpl.
  match goal with |- context [walk_from ?cs getChild ?p ?s] =>
    pose proof (walk_from_getChild_spec cs p s) as Hw end.
  simpl in Hw. unfold loc_of in H. rewrite H in Hw.
  destruct Hw as (e & -> & He). by exists e.
Qed.

Lemma InternalGet_Ok_inv (nodePath : string) (index term : N)
    (fs fs' : FileSystem) (p : NodePtr) :
  InternalGet nodePath index term fs = (fs', Ok p) →
  fs' = mkFileSystem (Root fs) (WatcherHub fs) index term ∧
  p.1 = loc_of nodePath ∧ get_at (Root fs) (loc_of nodePath) = Some p.2.
Proof.
  intros H. destruct (get_at (Root fs) (loc_of nodePath)) as [n|] eqn:Hn.
  - rewrite (InternalGet_found _ _ _ _ _ Hn) in H. by injection H as <- <-.
  - destruct (InternalGet_missing _ index term _ Hn) as (e & He & _). congruence.
Qed.

(** ** The permission checks read only *)

Lemma checkPerm_from_cons (aclName perm : string) (char : N) (rest : list N)
    (fs : FileSystem) :
  checkPerm_from aclName perm (char :: rest) fs
  = match InternalGet
            (path.Join ["/ACL"; aclName; utf8.string_of_rune char; getUser])
            (Index fs) (Term fs) fs with
    | (fs', Ok _) => checkPerm_from aclName perm rest fs'
    | (fs', Err _) => (fs', Err (NewError EcodePermissionDenied perm))
    | (fs', Panic) => (fs', Panic)
    end.
Proof. reflexivity. Qed.

Lemma checkPerm_from_spec (aclName perm : string) (rest : list N)
    (fs : FileSystem) :
  checkPerm_from aclName perm rest fs
  = (fs, if decide (granted (Root fs) aclName getUser rest) then Ok tt
         else Err (NewError EcodePermissionDenied perm)).
Proof.
  induction rest as [|char rest IH]; [done|].
  rewrite checkPerm_from_cons.
  destruct (decide (granted (Root fs) aclName getUser (char :: rest)))
    as [Hg|Hg]; cbn [granted] in Hg.
  - destruct Hg as [[n Hn] Hg].
    rewrite (InternalGet_found _ _ _ _ _ Hn), FileSystem_eta, IH.
    by rewrite decide_True.
  - destruct (get_at (Root fs)
        (loc_of (path.Join ["/ACL"; aclName; utf8.string_of_rune char;
                            getUser])))
      as [n|] eqn:Hn.
    + rewrite (InternalGet_found _ _ _ _ _ Hn), FileSystem_eta, IH.
      rewrite decide_False; [done|]. intros ?. apply Hg. by split.
    + destruct (InternalGet_missing _ (Index fs) (Term fs) _ Hn) as (e & -> & _).
      by rewrite FileSystem_eta.
Qed.

Lemma checkPerm_spec (aclName perm : string) (fs : FileSystem) :
  checkPerm aclName perm fs
  = (fs, if decide (granted (Root fs) aclName getUser (utf8.range perm))
         then Ok tt
         else Err (NewError EcodePermissionDenied perm)).
Proof. apply checkPerm_from_spec. Qed.

Lemma reads_checkPerm (aclName perm : string) : reads (checkPerm aclName perm).
Proof. intros fs. rewrite checkPerm_spec. simpl. by case_decide. Qed.

Lemma refuses_checkPerm (aclName perm : string) :
  refuses perm (checkPerm aclName perm).
Proof. intros fs. rewrite checkPerm_spec. simpl. case_decide; auto. Qed.

Lemma refuses_bind (perm : string) (c k : M unit) :
  refuses perm c → refuses perm k → refuses perm (c ;;; k).
Proof.
  intros Hc Hk fs. unfold bind. specialize (Hc fs).
  destruct (c fs) as [fs' [[]|e|]]; simpl in *; [apply Hk| |]; destruct Hc; auto; done.
Qed.

Lemma hasPerm_children (perm : string) (recursive : bool)
    (P : M unit → Prop) (l : list (string * Node)) :
  P (ret tt) →
  (∀ c k, c ∈ l.*2 → P k → P (hasPerm c perm recursive ;;; k)) →
  P (foldr (uncurry (λ (_ : string) c (others : M unit),
       if IsHidden c then others else hasPerm c perm recursive ;;; others))
       (ret tt) l).
Proof.
  intros H0 Hs. induction l as [|[k c] l IH]; simpl; [done|].
  assert (P (foldr (uncurry (λ (_ : string) c (others : M unit),
       if IsHidden c then others else hasPerm c perm recursive ;;; others))
       (ret tt) l)) as Hl.
  { apply IH. intros c' k' Hc'. apply Hs. simpl. by apply elem_of_cons; right. }
  destruct (IsHidden c); [done|]. apply Hs; [|done]. simpl. apply elem_of_cons; by left.
Qed.

Lemma hasPerm_reads_refuses (n : Node) (perm : string) (recursive : bool) :
  reads (hasPerm n perm recursive) ∧ refuses perm (hasPerm n perm recursive).
Proof.
  induction n as [n IH] using Node_children_ind.
  destruct n as [p ci ct mi mt x a v cs k]. simpl.
  assert (∀ c : M unit, reads c ∧ refuses perm c →
    reads (checkPerm a perm ;;; c) ∧ refuses perm (checkPerm a perm ;;; c)) as Hb.
  { intros c [? ?]. split.
    - apply reads_bind; [apply reads_checkPerm|done].
    - apply refuses_bind; [apply refuses_checkPerm|done]. }
  assert (reads (ret tt) ∧ refuses perm (ret tt)) as Hret.
  { split; [apply reads_ret|]. intros fs. by left. }
  apply Hb. destruct cs as [cs|]; [|done]. destruct recursive; [|done].
  rewrite map_fold_foldr.
  apply (hasPerm_children perm true (λ c, reads c ∧ refuses perm c)); [done|].
  intros c others Hc [? ?].
  apply list_elem_of_fmap in Hc as ([name c'] & -> & Hc). simpl.
  apply elem_of_map_to_list in Hc.
  destruct (IH name c') as [? ?]; [done|]. split.
  - by apply reads_bind.
  - by apply refuses_bind.
Qed.

Lemma hasPerm_state (n : Node) (perm : string) (recursive : bool) (fs : FileSystem) :
  (hasPerm n perm recursive fs).1 = fs.
Proof. apply hasPerm_reads_refuses. Qed.

Lemma hasPerm_result (n : Node) (perm : string) (recursive : bool) (fs : FileSystem) :
  (hasPerm n perm recursive fs).2 = Ok tt ∨
  (hasPerm n perm recursive fs).2 = Err (NewError EcodePermissionDenied perm).
Proof. apply hasPerm_reads_refuses. Qed.
(** ** The stored (Index, Term) *)

Lemma keeps_ret {A} (a : A) : keeps_clock (ret a).
Proof. by intros fs. Qed.

Lemma keeps_fail {A} (e : Error) : keeps_clock (@fail A e).
Proof. by intros fs. Qed.

Lemma keeps_panic {A} : keeps_clock (@panic A).
Proof. by intros fs. Qed.

Lemma keeps_getIndex : keeps_clock getIndex.
Proof. by intros fs. Qed.

Lemma keeps_getTerm : keeps_clock getTerm.
Proof. by intros fs. Qed.

Lemma keeps_mutate (p : NodePtr) (f : Node → Node) : keeps_clock (mutate p f).
Proof. by intros fs. Qed.

Lemma keeps_notify (e : Event.t) : keeps_clock (notify e).
Proof. by intros fs. Qed.

Lemma keeps_notifyWithPath (e : Event.t) (p : string) (d : bool) :
  keeps_clock (notifyWithPath e p d).
Proof. by intros fs. Qed.

Lemma keeps_bind {A B} (c : M A) (k : A → M B) :
  keeps_clock c → (∀ a, keeps_clock (k a)) → keeps_clock (bind c k).
Proof.
  intros Hc Hk fs. unfold bind. specialize (Hc fs).
  destruct (c fs) as [fs' [a|e|]]; simpl in *; [|done|done].
  by rewrite Hk.
Qed.

Lemma sets_bind {A B} (it : N * N) (c : M A) (k : A → M B) :
  sets_clock it c → (∀ a, keeps_clock (k a)) → sets_clock it (bind c k).
Proof.
  intros Hc Hk fs. unfold bind. specialize (Hc fs).
  destruct (c fs) as [fs' [a|e|]]; simpl in *; [|done|done].
  by rewrite Hk.
Qed.

Lemma keeps_reads {A} (c : M A) : reads c → keeps_clock c.
Proof. intros H fs. by destruct (H fs) as [-> _]. Qed.

Lemma sets_InternalGet (nodePath : string) (index term : N) :
  sets_clock (index, term) (InternalGet nodePath index term).
Proof. intros fs. by rewrite InternalGet_state. Qed.

(** A step of the proofs that a method keeps the stored pair. *)
Ltac keeps_step :=
  first
    [ apply keeps_ret | apply keeps_fail | apply keeps_panic
    | apply keeps_getIndex | apply keeps_getTerm | apply keeps_mutate
    | apply keeps_notify | apply keeps_notifyWithPath
    | apply keeps_reads; first [ apply reads_checkPerm | apply hasPerm_reads_refuses ]
    | apply keeps_bind; [|intros ?]
    | match goal with
      | |- keeps_clock (if ?b then _ else _) => destruct b
      | |- keeps_clock (match ?x with _ => _ end) => destruct x
      end ].

Lemma keeps_checkDir (parent : NodePtr) (dirName : string) :
  keeps_clock (checkDir parent dirName).
Proof. unfold checkDir. repeat keeps_step. Qed.

Lemma keeps_walk_from_checkDir (cs : list string) (p : NodePtr) :
  keeps_clock (walk_from cs checkDir p).
Proof.
  revert p. induction cs as [|c cs IH]; intros p; simpl; repeat keeps_step.
  - apply keeps_checkDir.
  - apply IH.
Qed.

Lemma keeps_walk_checkDir (nodePath : string) :
  keeps_clock (walk nodePath checkDir).
Proof. intros fs. apply keeps_walk_from_checkDir. Qed.

Lemma keeps_Add (d : NodePtr) (n : Node) : keeps_clock (Add d n).
Proof. unfold Add. repeat keeps_step. Qed.

Lemma keeps_callbacks (e : Event.t) (l : list string) :
  keeps_clock
    (foldr (λ p rest, notifyWithPath e p true ;;; rest) (ret tt) l).
Proof.
  induction l as [|p l IH]; simpl; [apply keeps_ret|].
  apply keeps_bind; [apply keeps_notifyWithPath | intros _; apply IH].
Qed.

Lemma keeps_Remove (n : NodePtr) (recursive : bool) (e : Event.t) :
  keeps_clock (Remove n recursive (λ p, notifyWithPath e p true)).
Proof.
  unfold Remove. repeat keeps_step; first [apply keeps_callbacks | by intros fs].
Qed.

Lemma keeps_hasPermOnParent_from (names : list string) (perm : string)
    (curNode : Node) : keeps_clock (hasPermOnParent_from names perm curNode).
Proof.
  revert curNode. induction names as [|name names IH]; intros c; simpl;
    repeat keeps_step. apply IH.
Qed.

Lemma keeps_hasPermOnParent (nodePath perm : string) :
  keeps_clock (hasPermOnParent nodePath perm).
Proof. intros fs. apply keeps_hasPermOnParent_from. Qed.

Lemma keeps_InternalCreate (nodePath value : string) (expireTime : time.Time)
    (index term : N) (now : time.Time) :
  keeps_clock (InternalCreate nodePath value expireTime index term now).
Proof.
  unfold InternalCreate. repeat keeps_step;
    first [apply keeps_walk_checkDir | apply keeps_Add].
Qed.

Lemma sets_Get (nodePath : string) (recursive sorted : bool) (index term : N) :
  sets_clock (index, term) (Get nodePath recursive sorted index term).
Proof.
  unfold Get. apply sets_bind; [apply sets_InternalGet|]. intros n.
  repeat keeps_step.
Qed.

Lemma sets_Update (nodePath value : string) (expireTime : time.Time)
    (index term : N) (now : time.Time) :
  sets_clock (index, term) (Update nodePath value expireTime index term now).
Proof.
  unfold Update. apply sets_bind; [apply sets_InternalGet|]. intros n.
  repeat keeps_step.
Qed.

Lemma sets_TestAndSet (nodePath prevValue : string) (prevIndex : N)
    (value : string) (expireTime : time.Time) (index term : N) :
  sets_clock (index, term)
    (TestAndSet nodePath prevValue prevIndex value expireTime index term).
Proof.
  unfold TestAndSet. apply sets_bind; [apply sets_InternalGet|]. intros n.
  repeat keeps_step.
Qed.

Lemma sets_Delete (nodePath : string) (recursive : bool) (index term : N) :
  sets_clock (index, term) (Delete nodePath recursive index term).
Proof.
  unfold Delete. apply sets_bind; [apply sets_InternalGet|]. intros n.
  repeat keeps_step; first [apply keeps_hasPermOnParent | apply keeps_Remove].
Qed.

(** [Create] sets the pair once the check on the parent has passed, and
    keeps it when the check refuses. *)
Lemma clock_Create (nodePath value : string) (expireTime : time.Time)
    (index term : N) (now : time.Time) (fs : FileSystem) :
  clock (Create nodePath value expireTime index term now fs).1
  = match (hasPermOnParent (pathCleaning ("/" ++ nodePath)) "w" fs).2 with
    | Ok _ => (index, term)
    | _ => clock fs
    end.
Proof.
  unfold Create, bind.
  pose proof (keeps_hasPermOnParent (pathCleaning ("/" ++ nodePath)) "w" fs) as Hk.
  destruct (hasPermOnParent _ _ fs) as [fs1 [[]|e|]]; simpl in *; [|done|done].
  pose proof (sets_InternalGet (pathCleaning ("/" ++ nodePath)) index term fs1) as Hs.
  destruct (InternalGet _ index term fs1) as [fs2 [p|e|]]; simpl in *; [done| |done].
  case_decide; [done|]. by rewrite keeps_InternalCreate.
Qed.
(** ** The pieces of a path *)

Lemma Split_nonempty (s : string) : strings.Split s ≠ [].
Proof.
  destruct s as [|c s]; simpl; [done|].
  case_decide; [done|]. by destruct (strings.Split s).
Qed.

Lemma Split_single_empty (s : string) : strings.Split s = [""] → s = "".
Proof.
  destruct s as [|c s]; simpl; [done|].
  case_decide.
  - intros [= Hs]. by destruct (Split_nonempty s).
  - by destruct (strings.Split s).
Qed.

(** The directory of a path has the pieces of the path but the last one,
    and an empty piece; the file of a path is its last piece. *)
Lemma Split_dir_file (p : string) :
  strings.Split (path.Split p).1 = (removelast (strings.Split p) ++ [""])%list ∧
  (path.Split p).2 = List.last (strings.Split p) "".
Proof.
  induction p as [|c p [IHd IHf]]; simpl; [done|].
  destruct (path.Split p) as [dir file] eqn:Hs. simpl in *.
  pose proof (Split_nonempty p) as Hne.
  destruct (decide (c = "/"%char)) as [->|Hc]; simpl.
  - rewrite IHd.
    destruct (strings.Split p) as [|x xs]; [done|]. by destruct xs.
  - destruct (decide (dir = "")) as [->|Hd]; simpl.
    + destruct (strings.Split p) as [|x xs]; [done|].
      destruct xs as [|y ys]; [simpl in *; by subst|].
      change (removelast (x :: y :: ys)) with (x :: removelast (y :: ys)) in IHd.
      simpl in IHd. injection IHd as _ IHd.
      by destruct ys.
    + rewrite (decide_False (P := c = "/"%char)) by done. rewrite IHd.
      destruct (strings.Split p) as [|x xs]; [done|].
      destruct xs as [|y ys].
      * apply Split_single_empty in IHd. done.
      * change (removelast (x :: y :: ys)) with (x :: removelast (y :: ys)).
        change (removelast (String c x :: y :: ys))
          with (String c x :: removelast (y :: ys)).
        done.
Qed.

Lemma walked_app_empty (cs : list string) :
  walked (cs ++ [""]) = walked cs.
Proof.
  induction cs as [|c cs IH]; simpl; [done|]. case_decide; [done|]. by rewrite IH.
Qed.

(** Without its last component a walk stops where it did, or one
    component earlier when the last component is the one that is left
    out. *)
Lemma walked_removelast (cs : list string) :
  cs ≠ [] →
  walked (removelast cs) = walked cs ∨
  walked cs = (walked (removelast cs) ++ [List.last cs ""])%list.
Proof.
  induction cs as [|c cs IH]; [done|]. intros _.
  destruct cs as [|c' cs']; simpl.
  - case_decide; [by left|by right].
  - case_decide; [by left|].
    destruct IH as [IH|IH]; [done| |].
    + left. f_equal. exact IH.
    + right. simpl in IH. rewrite IH. done.
Qed.

(** The place of the directory of a path, against the place of the
    path. *)
Lemma loc_of_dir (p : string) :
  tail (strings.Split p) ≠ [] →
  loc_of (path.Split p).1 = loc_of p ∨
  loc_of p = new_loc p.
Proof.
  intros Hne. unfold new_loc, loc_of.
  destruct (Split_dir_file p) as [-> ->].
  destruct (strings.Split p) as [|x cs] eqn:Hs; [done|]. simpl in Hne.
  destruct cs as [|c cs']; [done|].
  change (removelast (x :: c :: cs')) with (x :: removelast (c :: cs')).
  change (List.last (x :: c :: cs') "") with (List.last (c :: cs') "").
  simpl tail. rewrite walked_app_empty.
  exact (walked_removelast (c :: cs') Hne).
Qed.
(** ** The components of a cleaned path *)

Lemma Split_no_slash (s : string) : Forall no_slash (strings.Split s).
Proof.
  induction s as [|c s IH]; simpl; [by repeat constructor|].
  case_decide.
  - by constructor.
  - destruct (strings.Split s) as [|x xs]; [by repeat constructor|].
    inversion IH; subst. by constructor.
Qed.

Lemma clean_step_names (kept : list string) (c : string) :
  Forall is_name kept → no_slash c →
  Forall is_name (path.clean_step true kept c).
Proof.
  intros Hk Hc. unfold path.clean_step. repeat case_decide; try done.
  - destruct kept; [done|]. by inversion Hk.
  - by constructor.
Qed.

Lemma clean_fold_names (cs kept : list string) :
  Forall no_slash cs → Forall is_name kept →
  Forall is_name (fold_left (path.clean_step true) cs kept).
Proof.
  revert kept. induction cs as [|c cs IH]; intros kept Hcs Hk; simpl; [done|].
  inversion Hcs; subst. apply IH; [done|]. by apply clean_step_names.
Qed.

Lemma Split_no_slash_single (x : string) :
  no_slash x → strings.Split x = [x].
Proof.
  induction x as [|c x IH]; simpl; [done|]. intros [Hc Hx].
  rewrite decide_False by done. by rewrite IH.
Qed.

Lemma Split_app_slash (x rest : string) :
  no_slash x → strings.Split (x ++ "/" ++ rest) = x :: strings.Split rest.
Proof.
  induction x as [|c x IH]; simpl; [done|]. intros [Hc Hx].
  rewrite decide_False by done. by rewrite IH.
Qed.

Lemma Split_Join (comps : list string) :
  comps ≠ [] → Forall no_slash comps →
  strings.Split (strings.Join comps) = comps.
Proof.
  unfold strings.Join.
  induction comps as [|x comps IH]; [done|]. intros _ Hall.
  inversion Hall; subst. destruct comps as [|y comps].
  - simpl. by apply Split_no_slash_single.
  - change (String.concat "/" (x :: y :: comps))
      with (x ++ "/" ++ String.concat "/" (y :: comps)).
    rewrite Split_app_slash by done. f_equal. by apply IH.
Qed.

Lemma string_app_assoc (a b c : string) : (a ++ b) ++ c = a ++ b ++ c.
Proof.
  induction a as [|x a IH]; [done|].
  change (String x ((a ++ b) ++ c) = String x (a ++ b ++ c)). by f_equal.
Qed.

Lemma last_byte_app (a b : string) :
  b ≠ "" → last_byte (a ++ b) = last_byte b.
Proof.
  intros Hb. induction a as [|c a IH]; simpl; [done|].
  destruct (a ++ b) as [|c' s] eqn:Hab; [|done].
  destruct a; simpl in Hab; [by subst|discriminate].
Qed.

Lemma last_byte_name (x : string) :
  is_name x → last_byte x ≠ Some "/"%char.
Proof.
  intros [Hne Hx]. induction x as [|c x IH]; [done|]. simpl.
  destruct Hx as [Hc Hx]. destruct x as [|c' x]; [congruence|].
  by apply IH.
Qed.

Lemma last_byte_Join (comps : list string) (pre : string) :
  comps ≠ [] → Forall is_name comps →
  last_byte (pre ++ strings.Join comps) ≠ Some "/"%char.
Proof.
  unfold strings.Join. revert pre.
  induction comps as [|x comps IH]; [done|]. intros pre _ Hall.
  inversion Hall as [|? ? Hx Hrest]; subst. destruct comps as [|y comps].
  - simpl. rewrite last_byte_app by apply Hx. by apply last_byte_name.
  - change (String.concat "/" (x :: y :: comps))
      with (x ++ "/" ++ String.concat "/" (y :: comps)).
    rewrite <- !string_app_assoc. by apply IH.
Qed.

(** The components of a cleaned path are names. *)
Lemma pathCleaning_names (nodePath : string) :
  Forall is_name (tail (strings.Split (pathCleaning ("/" ++ nodePath)))).
Proof.
  unfold pathCleaning, path.Clean.
  change (path.is_rooted ("/" ++ nodePath)) with true. cbv iota.
  set (kept := fold_left (path.clean_step true)
                 (strings.Split ("/" ++ nodePath)) []).
  assert (Forall is_name (rev kept)) as Hk.
  { apply Forall_rev. apply clean_fold_names; [apply Split_no_slash|done]. }
  destruct (rev kept) as [|x comps] eqn:Hrev.
  - simpl. done.
  - rewrite decide_False.
    + change ("/" ++ strings.Join (x :: comps))
        with (String "/" (strings.Join (x :: comps))).
      simpl strings.Split. simpl tail.
      rewrite Split_Join; [done|done|].
      eapply Forall_impl; [exact Hk|]. by intros ? [? ?].
    + by apply last_byte_Join.
Qed.

Lemma walked_names (cs : list string) : Forall is_name cs → walked cs = cs.
Proof.
  induction 1 as [|c cs [Hc _] _ IH]; simpl; [done|].
  rewrite decide_False by done. by rewrite IH.
Qed.

(** [InternalCreate] puts the node of a cleaned path where [InternalGet]
    looks for it. *)
Lemma new_loc_cleaned (nodePath : string) :
  let p := pathCleaning ("/" ++ nodePath) in
  tail (strings.Split p) ≠ [] → new_loc p = loc_of p.
Proof.
  intros p Hne. pose proof (pathCleaning_names nodePath) as Hn. fold p in Hn.
  destruct (loc_of_dir p Hne) as [Heq|Heq]; [|done].
  exfalso. unfold loc_of in Heq. destruct (Split_dir_file p) as [Hd _].
  rewrite Hd in Heq.
  destruct (strings.Split p) as [|x cs]; [done|]. simpl in Hne, Hn.
  destruct cs as [|c cs]; [done|].
  change (removelast (x :: c :: cs)) with (x :: removelast (c :: cs)) in Heq.
  simpl tail in Heq. rewrite walked_app_empty in Heq.
  rewrite (walked_names (c :: cs)) in Heq by done.
  rewrite walked_names in Heq.
  - change (removelast (c :: cs) = c :: cs) in Heq.
    apply (f_equal List.length) in Heq.
    rewrite removelast_firstn_len, length_take in Heq. simpl in Heq. lia.
  - rewrite (app_removelast_last "" (l := c :: cs)) in Hn by done.
    by apply Forall_app in Hn as [? _].
Qed.
(** ** The permission checks depend on the tree only *)

Lemma root_only_ret {A} (a : A) : root_only (ret a).
Proof. by intros fs fs' _. Qed.

Lemma root_only_bind {A B} (c : M A) (k : A → M B) :
  reads c → root_only c → (∀ a, root_only (k a)) → root_only (bind c k).
Proof.
  intros Hr Hc Hk fs fs' Heq. unfold bind.
  specialize (Hc fs fs' Heq).
  destruct (Hr fs) as [H1 _], (Hr fs') as [H2 _].
  destruct (c fs) as [s [a|e|]], (c fs') as [s' [a'|e'|]];
    simpl in *; subst; try congruence.
  injection Hc as <-. by apply Hk.
Qed.

Lemma root_only_checkPerm (aclName perm : string) :
  root_only (checkPerm aclName perm).
Proof. intros fs fs' Heq. by rewrite !checkPerm_spec, Heq. Qed.

Lemma root_only_hasPerm (n : Node) (perm : string) (recursive : bool) :
  root_only (hasPerm n perm recursive).
Proof.
  induction n as [n IH] using Node_children_ind.
  destruct n as [p ci ct mi mt x a v cs k]. simpl.
  apply root_only_bind;
    [apply reads_checkPerm | apply root_only_checkPerm | intros _].
  destruct cs as [cs|]; [|apply root_only_ret].
  destruct recursive; [|apply root_only_ret].
  rewrite map_fold_foldr.
  apply (hasPerm_children perm true (λ c, reads c ∧ root_only c)).
  - split; [apply reads_ret | apply root_only_ret].
  - intros c others Hc [? ?].
    apply list_elem_of_fmap in Hc as ([name c'] & -> & Hc). simpl.
    apply elem_of_map_to_list in Hc.
    split.
    + apply reads_bind; [apply hasPerm_reads_refuses | done].
    + apply root_only_bind; [apply hasPerm_reads_refuses | apply (IH name c' Hc) | done].
Qed.

(** The outcome of [hasPerm] after the stored pair has been set. *)
Lemma hasPerm_after_set (n : Node) (perm : string) (recursive : bool)
    (index term : N) (fs : FileSystem) :
  hasPerm n perm recursive (mkFileSystem (Root fs) (WatcherHub fs) index term)
  = (mkFileSystem (Root fs) (WatcherHub fs) index term,
     (hasPerm n perm recursive fs).2).
Proof.
  rewrite (surjective_pairing (hasPerm _ _ _ (mkFileSystem _ _ _ _))).
  f_equal; [apply hasPerm_state | by apply root_only_hasPerm].
Qed.

(** ** Changes of one node *)

Lemma alter_at_ext (f g : Node → Node) (loc : list string) (r : Node) :
  (∀ n, f n = g n) → alter_at f loc r = alter_at g loc r.
Proof.
  intros H. revert r. induction loc as [|c loc IH]; intros r; simpl; [done|].
  f_equal. destruct (Children r) as [cs|]; simpl; [|done]. f_equal.
  apply alter_ext. intros m _. apply IH.
Qed.

Lemma alter_at_compose (f g : Node → Node) (loc : list string) (r : Node) :
  alter_at g loc (alter_at f loc r) = alter_at (g ∘ f) loc r.
Proof.
  revert r. induction loc as [|c loc IH]; intros r; simpl; [done|].
  unfold with_Children. simpl. f_equal.
  destruct (Children r) as [cs|]; simpl; [|done]. f_equal.
  rewrite alter_alter_eq. apply alter_ext. intros m _. simpl. apply IH.
Qed.

(** Only the node at [loc] is changed: two changes that agree on it give
    the same tree. *)
Lemma alter_at_agree (f g : Node → Node) (loc : list string) (r n : Node) :
  get_at r loc = Some n → f n = g n → alter_at f loc r = alter_at g loc r.
Proof.
  revert r. induction loc as [|c loc IH]; intros r; simpl.
  - by intros [= ->].
  - unfold child. intros Hc Hfg. f_equal.
    destruct (Children r) as [cs|]; simpl; [|done]. f_equal.
    apply alter_ext. intros m Hm. rewrite Hm in Hc. by apply IH.
Qed.

Lemma alter_at_id (loc : list string) (r : Node) : alter_at id loc r = r.
Proof.
  revert r. induction loc as [|c loc IH]; intros r; simpl; [done|].
  destruct r as [p ci ct mi mt x a v [cs|] k]; unfold with_Children; simpl;
    [|done].
  f_equal. f_equal. apply map_eq. intros i. rewrite lookup_alter.
  case_decide; [subst|done]. destruct (cs !! i); simpl; [|done]. by rewrite IH.
Qed.

Lemma alter_at_same (g : Node → Node) (loc : list string) (r n : Node) :
  get_at r loc = Some n → g n = n → alter_at g loc r = r.
Proof.
  intros Hn Hg. rewrite <- (alter_at_id loc r) at 2.
  by apply (alter_at_agree _ _ _ _ n).
Qed.
(** ** What a change of the tree leaves in place *)

Lemma same_meta_refl (n : Node) : same_meta n n.
Proof. done. Qed.

Lemma same_meta_trans (n m k : Node) :
  same_meta n m → same_meta m k → same_meta n k.
Proof. unfold same_meta. intros [? ?] [? ?]. split; congruence. Qed.

Lemma same_meta_with_Children (g : gmap string Node → gmap string Node)
    (n : Node) : same_meta n (with_Children (g <$> Children n) n).
Proof. split; [done|]. unfold IsDir. simpl. by destruct (Children n). Qed.

Lemma same_meta_fields (n m : Node) :
  same_meta n m →
  Path n = Path m ∧ CreateIndex n = CreateIndex m ∧
  CreateTerm n = CreateTerm m ∧ ModifiedIndex n = ModifiedIndex m ∧
  ModifiedTerm n = ModifiedTerm m ∧ ExpireTime n = ExpireTime m ∧
  ACL n = ACL m ∧ Value n = Value m ∧ Expirers n = Expirers m ∧
  IsDir n = IsDir m.
Proof.
  destruct n, m. unfold same_meta, with_Children. simpl.
  intros [H ?]. injection H as -> -> -> -> -> -> -> -> ->. done.
Qed.

(** A change at [loc] leaves every node that is not at or below [loc] in
    place, up to its children. *)
Lemma alter_at_frame (f : Node → Node) (loc l : list string) (r m : Node) :
  ¬ loc `prefix_of` l →
  get_at r l = Some m →
  ∃ m', get_at (alter_at f loc r) l = Some m' ∧ same_meta m m'.
Proof.
  revert l r. induction loc as [|c loc IH]; intros l r Hp Hm.
  { destruct Hp. apply prefix_nil. }
  destruct l as [|c' l]; simpl in *.
  - injection Hm as <-. eexists. split; [done|]. apply same_meta_with_Children.
  - rewrite child_alter. destruct (decide (c = c')) as [<-|Hc].
    + destruct (child r c) as [x|]; simpl; [|done].
      apply IH; [|done]. intros Hpre. apply Hp. by apply prefix_cons.
    + destruct (child r c') as [x|]; [|done]. by exists m.
Qed.

Lemma child_put_child (name name' : string) (c n : Node) :
  IsDir n = true →
  child (put_child name c n) name'
  = if decide (name = name') then Some c else child n name'.
Proof.
  unfold child, put_child, IsDir. destruct (Children n) as [cs|]; simpl; [|done].
  intros _. rewrite lookup_insert. by case_decide; subst.
Qed.

(** A child put under a name that is free leaves every node in place, up
    to its children. *)
Lemma put_child_frame (name : string) (c : Node) (loc l : list string)
    (r parent m : Node) :
  get_at r loc = Some parent → child parent name = None →
  get_at r l = Some m →
  ∃ m', get_at (alter_at (put_child name c) loc r) l = Some m' ∧ same_meta m m'.
Proof.
  revert l r. induction loc as [|x loc IH]; intros l r Hpar Hfree Hm; simpl in *.
  - injection Hpar as ->. destruct l as [|y l]; simpl in *.
    + injection Hm as <-. eexists. split; [done|]. apply same_meta_with_Children.
    + destruct (child parent y) as [k|] eqn:Hy; [|done].
      rewrite child_put_child by (by eapply child_Some_IsDir).
      rewrite decide_False by congruence. rewrite Hy. by exists m.
  - destruct l as [|y l]; simpl in *.
    + injection Hm as <-. eexists. split; [done|]. apply same_meta_with_Children.
    + rewrite child_alter. destruct (decide (x = y)) as [<-|Hxy].
      * destruct (child r x) as [k|]; simpl; [|done]. by apply IH.
      * destruct (child r y) as [k|]; [|done]. by exists m.
Qed.

(** ... and the child is found under the name. *)
Lemma get_at_put_child (name : string) (c : Node) (loc : list string)
    (r parent : Node) :
  get_at r loc = Some parent → IsDir parent = true →
  get_at (alter_at (put_child name c) loc r) (loc ++ [name]) = Some c.
Proof.
  intros Hpar Hd. erewrite get_at_snoc by (by apply get_at_alter_at).
  rewrite child_put_child by done. by rewrite decide_True.
Qed.

Lemma get_at_None_app (r : Node) (l1 l2 : list string) :
  get_at r l1 = None → get_at r (l1 ++ l2) = None.
Proof. intros H. by rewrite get_at_app, H. Qed.
(** ** A walk that makes the directories that are missing *)

Lemma checkDir_found (p : NodePtr) (name : string) (sub : Node)
    (fs : FileSystem) :
  child p.2 name = Some sub →
  checkDir p name fs = (fs, Ok ((p.1 ++ [name])%list, sub)).
Proof. intros H. unfold checkDir. by rewrite H. Qed.

Lemma checkDir_made (p : NodePtr) (name : string) (fs : FileSystem) :
  child p.2 name = None → IsDir p.2 = true →
  let n := newDir (path.Join [Path p.2; name]) (Index fs) (Term fs)
             (ACL p.2) Permanent in
  checkDir p name fs
  = (with_Root (alter_at (put_child name n) p.1 (Root fs)) fs,
     Ok ((p.1 ++ [name])%list, n)).
Proof. intros H Hd. unfold checkDir. rewrite H. simpl. by rewrite Hd. Qed.

Lemma get_at_empty_dir (n : Node) (l : list string) :
  Children n = Some ∅ → l ≠ [] → get_at n l = None.
Proof.
  intros Hn Hl. destruct l as [|c l]; [done|]. simpl. unfold child.
  by rewrite Hn, lookup_empty.
Qed.

Lemma walk_checkDir_spec (cs : list string) (p : NodePtr) (fs : FileSystem) :
  get_at (Root fs) p.1 = Some p.2 →
  (∀ k m, (k < List.length (walked cs))%nat →
     get_at p.2 (take k (walked cs)) = Some m → IsDir m = true) →
  ∃ fs' d,
    walk_from cs checkDir p fs = (fs', Ok d) ∧
    d.1 = (p.1 ++ walked cs)%list ∧
    get_at (Root fs') d.1 = Some d.2 ∧
    WatcherHub fs' = WatcherHub fs ∧ clock fs' = clock fs ∧
    (∀ l m, get_at (Root fs) l = Some m →
       ∃ m', get_at (Root fs') l = Some m' ∧ same_meta m m') ∧
    (∀ m, get_at p.2 (walked cs) = Some m → fs' = fs ∧ d.2 = m) ∧
    (get_at p.2 (walked cs) = None → Children d.2 = Some ∅) ∧
    (∀ k, (1 ≤ k ≤ List.length (walked cs))%nat →
       get_at p.2 (take k (walked cs)) = None →
       ∃ dir parent,
         get_at (Root fs') (p.1 ++ take k (walked cs)) = Some dir ∧
         get_at (Root fs') (p.1 ++ take (k - 1) (walked cs)) = Some parent ∧
         made_dir (Index fs) (Term fs) parent dir).
Proof.
  revert p fs. induction cs as [|c cs IH]; intros [loc n] fs Hv Hdirs;
    simpl in *.
  { exists fs, (loc, n). rewrite app_nil_r. split_and!; simpl; try done;
      first [ by intros m [= ->]
            | by (intros l m Hm; exists m; split; [|apply same_meta_refl])
            | (intros k Hk _; lia) ]. }
  destruct (decide (c = "")) as [->|Hc]; simpl in *.
  { exists fs, (loc, n). rewrite app_nil_r. split_and!; simpl; try done;
      first [ by intros m [= ->]
            | by (intros l m Hm; exists m; split; [|apply same_meta_refl])
            | (intros k Hk _; lia) ]. }
  set (w := walked cs) in *.
  assert (IsDir n = true) as Hd by (apply (Hdirs 0 n); [lia|done]).
  destruct (child n c) as [sub|] eqn:Hsub.
  - destruct (IH (loc ++ [c], sub)%list fs) as
      (fs' & d & Hw & Hd1 & Hd2 & HW & HC & Hfr & Hsame & Hfresh & Hmade);
      simpl.
    { by rewrite (get_at_snoc _ n). }
    { intros k m Hk Hm. apply (Hdirs (S k) m); [lia|]. simpl. by rewrite Hsub. }
    exists fs', d. unfold bind. rewrite (checkDir_found (loc, n) c sub) by done.
    simpl in *. rewrite <- app_assoc in Hd1. simpl in Hd1.
    split_and!; try done.
    intros k Hk Hnone. destruct k as [|k]; [lia|]. simpl in Hnone.
    rewrite Hsub in Hnone. destruct k as [|k].
    { by destruct w. }
    destruct (Hmade (S k)) as (dir & parent & H1 & H2 & H3); [lia|done|].
    exists dir, parent. simpl in *. rewrite <- !app_assoc in H1, H2.
    rewrite Nat.sub_0_r in *. simpl in *. done.
  - set (x := newDir (path.Join [Path n; c]) (Index fs) (Term fs) (ACL n)
                Permanent).
    set (fs1 := with_Root (alter_at (put_child c x) loc (Root fs)) fs).
    destruct (IH (loc ++ [c], x)%list fs1) as
      (fs' & d & Hw & Hd1 & Hd2 & HW & HC & Hfr & Hsame & Hfresh & Hmade);
      simpl.
    { by apply (get_at_put_child _ _ _ _ n). }
    { intros k m Hk Hm. destruct k as [|k]; [by injection Hm as <-|].
      rewrite get_at_empty_dir in Hm; [done|done|].
      destruct w; simpl in *; [lia|done]. }
    exists fs', d. unfold bind.
    rewrite (checkDir_made (loc, n) c fs) by done.
    fold x fs1. simpl in *. rewrite <- app_assoc in Hd1. simpl in Hd1.
    assert (∀ l m, get_at (Root fs) l = Some m →
       ∃ m', get_at (Root fs') l = Some m' ∧ same_meta m m') as Hfr'.
    { intros l m Hm.
      destruct (put_child_frame c x loc l (Root fs) n m) as (m1 & Hm1 & Hs1);
        [done..|].
      destruct (Hfr l m1 Hm1) as (m2 & Hm2 & Hs2).
      exists m2. split; [done|]. by eapply same_meta_trans. }
    split_and!; try done.
    + destruct (get_at x w) as [m|] eqn:Hxw.
      * destruct (Hsame m eq_refl) as [_ ->].
        destruct w; simpl in Hxw; [by injection Hxw as <-|done].
      * by apply Hfresh.
    + intros k Hk _. destruct k as [|k]; [lia|]. destruct k as [|k].
      * simpl. destruct (Hfr (loc ++ [c])%list x) as (dir & Hdir & Hs).
        { by apply (get_at_put_child _ _ _ _ n). }
        destruct (Hfr' loc n Hv) as (parent & Hpar & Hs').
        exists dir, parent. rewrite app_nil_r.
        replace (take 1 (c :: w)) with [c] by done. simpl.
        split; [done|]. split; [done|].
        apply same_meta_fields in Hs
          as (_ & Hci & Hct & _ & _ & Hx & Hacl & _ & Hex & Hkind).
        apply same_meta_fields in Hs'
          as (_ & _ & _ & _ & _ & _ & Hacl' & _ & _ & _).
        unfold made_dir.
        by rewrite <- Hkind, <- Hx, <- Hex, <- Hacl, <- Hci, <- Hct, <- Hacl'.
      * destruct (Hmade (S k)) as (dir & parent & H1 & H2 & H3).
        { lia. }
        { apply get_at_empty_dir; [done|].
          destruct w; simpl in *; [lia|done]. }
        exists dir, parent. simpl in *. rewrite <- !app_assoc in H1, H2.
        rewrite Nat.sub_0_r in *. simpl in *. done.
Qed.
(** ** Why a walk fails *)

Lemma getChild_found (p : NodePtr) (name : string) (c : Node) (fs : FileSystem) :
  child p.2 name = Some c →
  getChild p name fs = (fs, Ok ((p.1 ++ [name])%list, c)).
Proof.
  intros H. unfold getChild. by rewrite (child_Some_IsDir _ _ _ H), H.
Qed.

Lemma getChild_file (p : NodePtr) (name : string) (fs : FileSystem) :
  IsDir p.2 = false →
  getChild p name fs = (fs, Err (NewError EcodeNotDir (Path p.2))).
Proof. intros H. unfold getChild. by rewrite H. Qed.

Lemma getChild_missing (p : NodePtr) (name : string) (fs : FileSystem) :
  IsDir p.2 = true → child p.2 name = None →
  getChild p name fs
  = (fs, Err (NewError EcodeKeyNotFound (path.Join [Path p.2; name]))).
Proof. intros H1 H2. unfold getChild. by rewrite H1, H2. Qed.

Lemma walk_getChild_error (cs : list string) (p : NodePtr) (fs : FileSystem) :
  get_at p.2 (walked cs) = None →
  ∃ e, walk_from cs getChild p fs = (fs, Err e) ∧
       (ErrorCode e = EcodeNotDir ∨ ErrorCode e = EcodeKeyNotFound) ∧
       (ErrorCode e = EcodeNotDir ↔ file_on_the_way p.2 (walked cs)).
Proof.
  revert p. induction cs as [|c cs IH]; intros [loc n]; simpl; [done|].
  case_decide; [done|]. simpl. intros Hnone.
  unfold bind.
  destruct (child n c) as [sub|] eqn:Hsub.
  - rewrite (getChild_found (loc, n) c sub) by done. simpl.
    destruct (IH ((loc ++ [c])%list, sub) Hnone) as (e & -> & Hcode & Hiff).
    exists e. split; [done|]. split; [done|]. rewrite Hiff. simpl.
    split; intros (k & file & Hk & Hf & Hfile).
    + exists (S k), file. simpl. rewrite Hsub. split; [lia|done].
    + destruct k as [|k]; simpl in Hf.
      * injection Hf as <-. by rewrite (child_Some_IsDir _ _ _ Hsub) in Hfile.
      * rewrite Hsub in Hf. exists k, file. simpl in Hk. split; [lia|done].
  - destruct (IsDir n) eqn:Hd.
    + rewrite (getChild_missing (loc, n)) by done.
      eexists. split; [done|]. simpl. split; [by right|].
      split; [done|]. intros (k & file & Hk & Hf & Hfile).
      destruct k as [|k]; simpl in Hf; [congruence|]. by rewrite Hsub in Hf.
    + rewrite (getChild_file (loc, n)) by done.
      eexists. split; [done|]. simpl. split; [by left|].
      split; [|done]. intros _. exists 0, n. simpl. split; [lia|done].
Qed.

Lemma InternalGet_error (nodePath : string) (index term : N) (fs : FileSystem) :
  get_at (Root fs) (loc_of nodePath) = None →
  ∃ e, InternalGet nodePath index term fs
       = (mkFileSystem (Root fs) (WatcherHub fs) index term, Err e) ∧
       (ErrorCode e = EcodeNotDir ∨ ErrorCode e = EcodeKeyNotFound) ∧
       (ErrorCode e = EcodeNotDir ↔ file_on_the_way (Root fs) (loc_of nodePath)).
Proof.
  intros H. unfold InternalGet, walk. rewrite setIndexTerm_then.
  apply (walk_getChild_error _ ([], Root fs)). exact H.
Qed.

(** ** InternalCreate *)

Lemma made_dir_same_meta (index term : N) (parent parent' d d' : Node) :
  made_dir index term parent d → same_meta parent parent' → same_meta d d' →
  made_dir index term parent' d'.
Proof.
  intros (H1 & H2 & H3 & H4 & H5 & H6) Hp Hd.
  apply same_meta_fields in Hd
    as (_ & Hci & Hct & _ & _ & Hx & Hacl & _ & Hex & Hkind).
  apply same_meta_fields in Hp as (_ & _ & _ & _ & _ & _ & Hacl' & _ & _ & _).
  unfold made_dir.
  by rewrite <- Hkind, <- Hx, <- Hex, <- Hacl, <- Hci, <- Hct, <- Hacl'.
Qed.

Lemma InternalCreate_spec (nodePath value : string) (expireTime : time.Time)
    (index term : N) (now : time.Time) (fs : FileSystem) :
  let dloc := loc_of (path.Split nodePath).1 in
  let name := (path.Split nodePath).2 in
  ¬ file_on_the_way (Root fs) dloc →
  (∀ d, get_at (Root fs) dloc = Some d → IsDir d = true ∧ child d name = None) →
  ∃ fs' parent,
    InternalCreate nodePath value expireTime index term now fs
    = (fs', Ok (created_event nodePath value expireTime (Index fs) (Term fs) now)) ∧
    get_at (Root fs') dloc = Some parent ∧
    get_at (Root fs') (new_loc nodePath)
    = Some (created nodePath value expireTime (Index fs) (Term fs) (ACL parent)) ∧
    clock fs' = clock fs ∧
    (∀ l m, get_at (Root fs) l = Some m →
       ∃ m', get_at (Root fs') l = Some m' ∧ same_meta m m') ∧
    (∀ k, (1 ≤ k ≤ List.length dloc)%nat →
       get_at (Root fs) (take k dloc) = None →
       ∃ dir par,
         get_at (Root fs') (take k dloc) = Some dir ∧
         get_at (Root fs') (take (k - 1) dloc) = Some par ∧
         made_dir (Index fs) (Term fs) par dir).
Proof.
  intros dloc name Hway Hfree.
  destruct (walk_checkDir_spec (tail (strings.Split (path.Split nodePath).1))
              ([], Root fs) fs) as
    (fs1 & d & Hw & Hd1 & Hd2 & HW & HC & Hfr & Hsame & Hfresh & Hmade);
    simpl; [done| |].
  { intros k m Hk Hm. destruct (IsDir m) eqn:Hdir; [done|].
    destruct Hway. by exists k, m. }
  simpl in *.
  change (walked (tail (strings.Split (path.Split nodePath).1))) with dloc in *.
  assert (IsDir d.2 = true ∧ child d.2 name = None) as [Hdd Hdn].
  { destruct (get_at (Root fs) dloc) as [m|] eqn:Hm.
    - destruct (Hsame m eq_refl) as [_ ->]. by apply Hfree.
    - specialize (Hfresh eq_refl). unfold IsDir, child. rewrite Hfresh.
      by rewrite lookup_empty. }
  injection HC as HI HT.
  set (n0 := if decide (value ≠ "")
             then newFile nodePath value (Index fs) (Term fs) (ACL d.2) expireTime
             else newDir nodePath (Index fs) (Term fs) (ACL d.2) expireTime).
  assert (Path n0 = nodePath) as HPath by (unfold n0; by case_decide).
  set (r2 := alter_at (put_child name n0) d.1 (Root fs1)).
  assert (get_at r2 (new_loc nodePath) = Some n0) as Hnew.
  { unfold new_loc. fold dloc name. rewrite <- Hd1.
    by apply (get_at_put_child _ _ _ _ d.2). }
  assert (∀ l m, get_at (Root fs1) l = Some m →
            ∃ m', get_at r2 l = Some m' ∧ same_meta m m') as Hfr2.
  { intros l m Hm. by apply (put_child_frame _ _ _ _ _ d.2). }
  set (r3 := if decide (expireTime ≠ Permanent)
             then alter_at arm (new_loc nodePath) r2 else r2).
  assert (∀ l m, ¬ new_loc nodePath `prefix_of` l → get_at r2 l = Some m →
            ∃ m', get_at r3 l = Some m' ∧ same_meta m m') as Hfr3.
  { intros l m Hl Hm. unfold r3. case_decide.
    - by apply alter_at_frame.
    - exists m. split; [done|apply same_meta_refl]. }
  assert (get_at (Root fs) (new_loc nodePath) = None) as Hnone.
  { unfold new_loc. fold dloc name.
    destruct (get_at (Root fs) dloc) as [m|] eqn:Hm.
    - rewrite (get_at_snoc _ m) by done. by apply Hfree.
    - by apply get_at_None_app. }
  assert (∀ l m, get_at (Root fs) l = Some m →
            ¬ new_loc nodePath `prefix_of` l) as Hnp.
  { intros l m Hm [l' ->]. by rewrite (get_at_None_app _ _ _ Hnone) in Hm. }
  assert (∀ l m, get_at (Root fs) l = Some m →
            ∃ m', get_at r3 l = Some m' ∧ same_meta m m') as Hfr03.
  { intros l m Hm.
    destruct (Hfr l m Hm) as (m1 & Hm1 & Hs1).
    destruct (Hfr2 l m1 Hm1) as (m2 & Hm2 & Hs2).
    destruct (Hfr3 l m2 (Hnp l m Hm) Hm2) as (m3 & Hm3 & Hs3).
    exists m3. split; [done|]. eauto using same_meta_trans. }
  assert (∀ l m, (List.length l ≤ List.length dloc)%nat →
            get_at (Root fs1) l = Some m →
            ∃ m', get_at r3 l = Some m' ∧ same_meta m m') as Hfr13.
  { intros l m Hl Hm.
    destruct (Hfr2 l m Hm) as (m2 & Hm2 & Hs2).
    destruct (Hfr3 l m2) as (m3 & Hm3 & Hs3); [|done|].
    - intros [l' ->]. unfold new_loc in Hl. fold dloc in Hl.
      rewrite !length_app in Hl. simpl in Hl. lia.
    - exists m3. split; [done|]. eauto using same_meta_trans. }
  destruct (Hfr13 dloc d.2) as (parent & Hpar & Hspar); [lia|by rewrite <- Hd1|].
  assert (ACL parent = ACL d.2) as Hacl.
  { by apply same_meta_fields in Hspar as (_ & _ & _ & _ & _ & _ & <- & _). }
  exists (mkFileSystem r3
            (WatcherHub fs ++ [notified (created_event nodePath value expireTime
                                            (Index fs) (Term fs) now)])
            (Index fs) (Term fs)), parent.
  split_and!; try done.
  - unfold InternalCreate, walk. erewrite bind_Ok by exact Hw.
    unfold bind at 1. unfold getIndex. simpl.
    unfold bind at 1. unfold getTerm. simpl. rewrite HI, HT. fold n0.
    unfold Add. rewrite HPath. fold name. unfold child in Hdn.
    unfold IsDir in Hdd. destruct (Children d.2) as [cs'|] eqn:Hcs; [|done].
    rewrite Hdn. unfold created_event, r3.
    unfold bind, mutate, notify, ret. simpl. fold r2.
    unfold new_loc. fold dloc name. rewrite <- Hd1.
    destruct (decide (expireTime ≠ Permanent)); simpl; by rewrite HW, HI, HT.
  - simpl. unfold r3, created. rewrite Hacl. fold n0.
    case_decide; [by apply get_at_alter_at | done].
  - intros k Hk Hk0.
    destruct (Hmade k Hk Hk0) as (dir & par & H1 & H2 & H3).
    destruct (Hfr13 (take k dloc) dir) as (dir' & Hdir' & Hs); [|done|].
    { rewrite length_take. lia. }
    destruct (Hfr13 (take (k - 1) dloc) par) as (par' & Hpar' & Hs'); [|done|].
    { rewrite length_take. lia. }
    exists dir', par'. split; [done|]. split; [done|].
    by eapply made_dir_same_meta.
Qed.
(** ** Create *)

Lemma reads_hasPermOnParent_from (names : list string) (perm : string)
    (curNode : Node) : reads (hasPermOnParent_from names perm curNode).
Proof.
  revert curNode. induction names as [|name names IH]; intros c; simpl.
  - apply reads_ret.
  - destruct (child c name); [apply IH | apply reads_checkPerm].
Qed.

Lemma hasPermOnParent_state (nodePath perm : string) (fs : FileSystem) :
  (hasPermOnParent nodePath perm fs).1 = fs.
Proof. apply reads_hasPermOnParent_from. Qed.

Lemma file_on_the_way_None (r : Node) (loc : list string) :
  file_on_the_way r loc → get_at r loc = None.
Proof.
  intros (k & file & Hk & Hf & Hfile).
  rewrite <- (take_drop k loc), get_at_app, Hf. simpl.
  destruct (drop k loc) as [|x l] eqn:Hdrop.
  - apply (f_equal List.length) in Hdrop. rewrite length_drop in Hdrop.
    simpl in Hdrop. lia.
  - simpl. unfold child. unfold IsDir in Hfile.
    by destruct (Children file).
Qed.

Lemma file_on_the_way_app (r : Node) (l1 l2 : list string) :
  file_on_the_way r l1 → file_on_the_way r (l1 ++ l2).
Proof.
  intros (k & file & Hk & Hf & Hfile). exists k, file.
  rewrite length_app. split; [lia|]. by rewrite take_app_le by lia.
Qed.

(** [Create] once the check on the parent has passed: on a path that
    resolves, and on a path with a file on the way. *)
Lemma Create_exists (nodePath value : string) (expireTime : time.Time)
    (index term : N) (now : time.Time) (fs : FileSystem) (n : Node) :
  (hasPermOnParent (pathCleaning ("/" ++ nodePath)) "w" fs).2 = Ok tt →
  get_at (Root fs) (loc_of (pathCleaning ("/" ++ nodePath))) = Some n →
  Create nodePath value expireTime index term now fs
  = (mkFileSystem (Root fs) (WatcherHub fs) index term,
     Err (NewError EcodeNodeExist (pathCleaning ("/" ++ nodePath)))).
Proof.
  intros Hp Hn. unfold Create.
  erewrite bind_Ok
    by (rewrite (surjective_pairing (hasPermOnParent _ _ _)), Hp;
        by rewrite hasPermOnParent_state).
  by rewrite (InternalGet_found _ _ _ _ n).
Qed.

Lemma Create_file_on_the_way (nodePath value : string)
    (expireTime : time.Time) (index term : N) (now : time.Time)
    (fs : FileSystem) :
  (hasPermOnParent (pathCleaning ("/" ++ nodePath)) "w" fs).2 = Ok tt →
  file_on_the_way (Root fs) (loc_of (pathCleaning ("/" ++ nodePath))) →
  ∃ e, Create nodePath value expireTime index term now fs
       = (mkFileSystem (Root fs) (WatcherHub fs) index term, Err e) ∧
       ErrorCode e = EcodeNotDir.
Proof.
  intros Hp Hf. unfold Create.
  erewrite bind_Ok
    by (rewrite (surjective_pairing (hasPermOnParent _ _ _)), Hp;
        by rewrite hasPermOnParent_state).
  destruct (InternalGet_error (pathCleaning ("/" ++ nodePath)) index term fs)
    as (e & -> & _ & Hiff); [by apply file_on_the_way_None|].
  apply Hiff in Hf. rewrite decide_True by done. by exists e.
Qed.

(** [Create] once the check on the parent has passed, on a path that does
    not resolve and has no file on the way: the node is added, and the
    directories that were missing on the way are made. *)
Lemma Create_makes (nodePath value : string) (expireTime : time.Time)
    (index term : N) (now : time.Time) (fs : FileSystem) :
  let p := pathCleaning ("/" ++ nodePath) in
  let dloc := loc_of (path.Split p).1 in
  (hasPermOnParent p "w" fs).2 = Ok tt →
  get_at (Root fs) (loc_of p) = None →
  ¬ file_on_the_way (Root fs) (loc_of p) →
  ∃ fs' parent,
    Create nodePath value expireTime index term now fs
    = (fs', Ok (created_event p value expireTime index term now)) ∧
    get_at (Root fs') dloc = Some parent ∧
    get_at (Root fs') (new_loc p)
    = Some (created p value expireTime index term (ACL parent)) ∧
    clock fs' = (index, term) ∧
    (∀ l m, get_at (Root fs) l = Some m →
       ∃ m', get_at (Root fs') l = Some m' ∧ same_meta m m') ∧
    (∀ k, (1 ≤ k ≤ List.length dloc)%nat →
       get_at (Root fs) (take k dloc) = None →
       ∃ dir par,
         get_at (Root fs') (take k dloc) = Some dir ∧
         get_at (Root fs') (take (k - 1) dloc) = Some par ∧
         made_dir index term par dir).
Proof.
  intros p dloc Hp Hnone Hway.
  assert (tail (strings.Split p) ≠ []) as Hne.
  { intros Hnil. unfold loc_of in Hnone. by rewrite Hnil in Hnone. }
  set (fs1 := mkFileSystem (Root fs) (WatcherHub fs) index term).
  destruct (InternalCreate_spec p value expireTime index term now fs1)
    as (fs' & parent & HC & Hrest).
  { fold dloc. simpl. destruct (loc_of_dir p Hne) as [Heq|Heq].
    - unfold dloc. by rewrite Heq.
    - intros Hf. apply Hway. rewrite Heq. unfold new_loc.
      by apply file_on_the_way_app. }
  { fold dloc. simpl. intros d Hd. destruct (loc_of_dir p Hne) as [Heq|Heq].
    - unfold dloc in Hd. rewrite Heq in Hd. congruence.
    - rewrite Heq in Hnone, Hway. unfold new_loc in Hnone, Hway.
      fold dloc in Hnone, Hway. split.
      + destruct (IsDir d) eqn:Hdir; [done|]. destruct Hway.
        exists (List.length dloc), d. rewrite length_app. simpl.
        split; [lia|]. by rewrite take_app_length.
      + by rewrite (get_at_snoc _ d) in Hnone. }
  exists fs', parent. split; [|exact Hrest].
  unfold Create. fold p.
  erewrite bind_Ok
    by (rewrite (surjective_pairing (hasPermOnParent _ _ _)), Hp;
        by rewrite hasPermOnParent_state).
  destruct (InternalGet_error p index term fs Hnone) as (e & -> & Hcode & Hiff).
  rewrite decide_False by (by rewrite Hiff). exact HC.
Qed.

(** When [Create] succeeds, the check has passed, the path did not
    resolve and had no file on the way. *)
Lemma Create_Ok_inv (nodePath value : string) (expireTime : time.Time)
    (index term : N) (now : time.Time) (fs fs' : FileSystem) (e : Event.t) :
  Create nodePath value expireTime index term now fs = (fs', Ok e) →
  (hasPermOnParent (pathCleaning ("/" ++ nodePath)) "w" fs).2 = Ok tt ∧
  get_at (Root fs) (loc_of (pathCleaning ("/" ++ nodePath))) = None ∧
  ¬ file_on_the_way (Root fs) (loc_of (pathCleaning ("/" ++ nodePath))).
Proof.
  intros H.
  destruct ((hasPermOnParent (pathCleaning ("/" ++ nodePath)) "w" fs).2)
    as [[]|err|] eqn:Hp.
  - split; [done|].
    destruct (get_at (Root fs) (loc_of (pathCleaning ("/" ++ nodePath))))
      as [n|] eqn:Hn.
    + by rewrite (Create_exists _ _ _ _ _ _ _ n) in H.
    + split; [done|]. intros Hf.
      destruct (Create_file_on_the_way nodePath value expireTime index term
                  now fs Hp Hf) as (err & Herr & _). congruence.
  - unfold Create, bind in H.
    destruct (hasPermOnParent _ _ fs) as [s r]. simpl in Hp. by subst.
  - unfold Create, bind in H.
    destruct (hasPermOnParent _ _ fs) as [s r]. simpl in Hp. by subst.
Qed.
(** ** Update and TestAndSet on a node that is found *)

Lemma hasPerm_after_set_Ok (n : Node) (perm : string) (recursive : bool)
    (index term : N) (fs : FileSystem) :
  (hasPerm n perm recursive fs).2 = Ok tt →
  hasPerm n perm recursive (mkFileSystem (Root fs) (WatcherHub fs) index term)
  = (mkFileSystem (Root fs) (WatcherHub fs) index term, Ok tt).
Proof. intros H. by rewrite hasPerm_after_set, H. Qed.

(** [Update] on a node that is found and may be written: a directory
    given a value is refused; otherwise the node becomes [updated] and the
    event is handed to the hub. *)
Lemma Update_found (nodePath value : string) (expireTime : time.Time)
    (index term : N) (now : time.Time) (fs : FileSystem) (n : Node) :
  get_at (Root fs) (loc_of (pathCleaning ("/" ++ nodePath))) = Some n →
  (hasPerm n "w" false fs).2 = Ok tt →
  Update nodePath value expireTime index term now fs
  = if IsDir n && bool_decide (value ≠ "") then
      (mkFileSystem (Root fs) (WatcherHub fs) index term,
       Err (NewError EcodeNotFile (pathCleaning ("/" ++ nodePath))))
    else
      let e := updated_event (pathCleaning ("/" ++ nodePath)) value expireTime
                 index term now n in
      (mkFileSystem
         (alter_at (updated value expireTime index term)
            (loc_of (pathCleaning ("/" ++ nodePath))) (Root fs))
         (WatcherHub fs ++ [notified e]) index term, Ok e).
Proof.
  intros Hn Hp. unfold Update.
  erewrite bind_Ok by (by apply InternalGet_found).
  erewrite bind_Ok by (by apply hasPerm_after_set_Ok).
  unfold updated, updated_event.
  set (p := pathCleaning ("/" ++ nodePath)). set (loc := loc_of p).
  unfold bind, getIndex, getTerm, mutate, notify, ret, fail. simpl.
  assert (∀ (F : Node → Node) (l : list Notification) (e e' : Event.t),
    F n = updated value expireTime index term n → e = e' →
    (mkFileSystem (alter_at F loc (Root fs)) (l ++ [notified e]) index term,
     @Ok Event.t e)
    = (mkFileSystem
         (alter_at (updated value expireTime index term) loc (Root fs))
         (l ++ [notified e']) index term, Ok e')) as Hfin.
  { intros F l e e' HF <-.
    by rewrite (alter_at_agree F (updated value expireTime index term)
                  loc (Root fs) n). }
  unfold updated in Hfin. unfold updated, updated_event.
  destruct (IsDir n) eqn:Hd; simpl in Hfin; simpl.
  - case_bool_decide as Hv.
    { by rewrite (decide_True (P := value ≠ "")). }
    rewrite (decide_False (P := value ≠ "")) by (by intros []). simpl.
    destruct (decide (ExpireTime n ≠ Permanent ∧ expireTime ≠ Permanent));
      destruct (decide (expireTime ≠ Permanent)); simpl;
      unfold with_Root; simpl; rewrite ?alter_at_compose; try tauto.
    + by apply Hfin.
    + by apply Hfin.
    + rewrite <- (alter_at_id loc (Root fs)) at 1. by apply Hfin.
  - destruct (decide (ExpireTime n ≠ Permanent ∧ expireTime ≠ Permanent));
      destruct (decide (expireTime ≠ Permanent)); simpl;
      unfold with_Root; simpl; rewrite ?alter_at_compose; try tauto.
    + by apply Hfin.
    + by apply Hfin.
    + by apply Hfin.
Qed.

(** [TestAndSet] on a file that is found and may be read and written. *)
Lemma TestAndSet_found (nodePath prevValue : string) (prevIndex : N)
    (value : string) (expireTime : time.Time) (index term : N)
    (fs : FileSystem) (f : Node) :
  get_at (Root fs) (loc_of (pathCleaning ("/" ++ nodePath))) = Some f →
  (hasPerm f "rw" false fs).2 = Ok tt →
  IsDir f = false →
  TestAndSet nodePath prevValue prevIndex value expireTime index term fs
  = if decide (Value f = prevValue ∨ ModifiedIndex f = prevIndex) then
      let e := Event.with_Value value
                 (Event.with_PrevValue (Value f)
                    (newEvent Event.TestAndSet
                       (pathCleaning ("/" ++ nodePath)) index term)) in
      (mkFileSystem
         (alter_at (Write value index term)
            (loc_of (pathCleaning ("/" ++ nodePath))) (Root fs))
         (WatcherHub fs ++ [notified e]) index term, Ok e)
    else
      (mkFileSystem (Root fs) (WatcherHub fs) index term,
       Err (NewError EcodeTestFailed (cause_of prevValue prevIndex f))).
Proof.
  intros Hf Hp Hd. unfold TestAndSet.
  erewrite bind_Ok by (by apply InternalGet_found).
  erewrite bind_Ok by (by apply hasPerm_after_set_Ok).
  simpl. rewrite Hd. by case_decide.
Qed.
(** ** Deciding whether a file is on the way *)

Lemma file_on_the_way_before (n : Node) (loc : list string) :
  file_on_the_way n loc ↔ file_before n loc = true.
Proof.
  revert n. induction loc as [|name rest IH]; intros n; simpl.
  - split; [|done]. intros (k & file & Hk & _). simpl in Hk. lia.
  - split.
    + intros (k & file & Hk & Hf & Hfile). destruct k as [|k]; simpl in Hf.
      * injection Hf as ->. by rewrite Hfile.
      * destruct (child n name) as [c|] eqn:Hc; [|done].
        rewrite (child_Some_IsDir _ _ _ Hc). simpl. apply IH.
        exists k, file. simpl in Hk. split; [lia|done].
    + destruct (IsDir n) eqn:Hd; simpl.
      * destruct (child n name) as [c|] eqn:Hc; [|done].
        intros (k & file & Hk & Hf & Hfile)%IH.
        exists (S k), file. simpl. rewrite Hc. split; [lia|done].
      * intros _. exists 0, n. simpl. split; [lia|done].
Qed.

#[global] Instance file_on_the_way_dec (n : Node) (loc : list string) :
  Decision (file_on_the_way n loc).
Proof.
  refine (cast_if (decide (file_before n loc = true)));
    by rewrite file_on_the_way_before.
Defined.

(** What [hasPermOnParent] checks: nothing when every name before the
    last one resolves, and otherwise the ACL of the last node that is
    there, at the first name that is missing. *)
Lemma hasPermOnParent_from_spec (names : list string) (perm : string)
    (curNode : Node) (fs : FileSystem) :
  (∀ parent, get_at curNode names = Some parent →
     hasPermOnParent_from names perm curNode fs = (fs, Ok tt)) ∧
  (∀ k anc name, names !! k = Some name →
     get_at curNode (take k names) = Some anc → child anc name = None →
     hasPermOnParent_from names perm curNode fs = checkPerm (ACL anc) perm fs).
Proof.
  revert curNode. induction names as [|x names IH]; intros cur; simpl.
  - split; [done|]. intros k anc name Hk. by rewrite lookup_nil in Hk.
  - destruct (child cur x) as [c|] eqn:Hc.
    + destruct (IH c) as [IH1 IH2]. split; [done|].
      intros k anc name Hk Hanc Hname. destruct k as [|k]; simpl in *.
      * injection Hk as ->. injection Hanc as ->. congruence.
      * rewrite Hc in Hanc. by eapply IH2.
    + split; [done|]. intros k anc name Hk Hanc Hname.
      destruct k as [|k]; simpl in *; [by injection Hanc as ->|].
      by rewrite Hc in Hanc.
Qed.


Lemma Split_app_slash_any (a b : string) :
  strings.Split (a ++ "/" ++ b) = (strings.Split a ++ strings.Split b)%list.
Proof.
  induction a as [|c a IH].
  - done.
  - change (String c a ++ "/" ++ b) with (String c (a ++ "/" ++ b)).
    cbn [strings.Split]. rewrite IH. case_decide; [done|].
    pose proof (Split_nonempty a) as Hne.
    by destruct (strings.Split a).
Qed.

Lemma walk_from_stops (cs rest : list string)
    (walkFunc : NodePtr → string → M NodePtr) (p : NodePtr) (fs : FileSystem) :
  walk_from (cs ++ "" :: rest) walkFunc p fs = walk_from cs walkFunc p fs.
Proof.
  revert p fs. induction cs as [|c cs IH]; intros p fs; simpl; [done|].
  case_decide; [done|]. unfold bind.
  destruct (walkFunc p c fs) as [fs' [q|e|]]; [apply IH|done|done].
Qed.

Lemma tail_Split_app (a b : string) :
  tail (strings.Split (a ++ "/" ++ b))
  = (tail (strings.Split a) ++ strings.Split b)%list.
Proof.
  rewrite Split_app_slash_any. pose proof (Split_nonempty a).
  by destruct (strings.Split a).
Qed.

(** On a cleaned path that resolves, the names before the last one
    resolve. *)
Lemma parent_of_cleaned_resolves (nodePath : string) (r n : Node) :
  get_at r (loc_of (pathCleaning ("/" ++ nodePath))) = Some n →
  is_Some (get_at r (removelast
                       (tail (strings.Split (pathCleaning ("/" ++ nodePath)))))).
Proof.
  unfold loc_of. pose proof (pathCleaning_names nodePath) as Hn.
  rewrite (walked_names _ Hn).
  destruct (tail (strings.Split (pathCleaning ("/" ++ nodePath))))
    as [|c cs] eqn:Hcs.
  - intros _. by eexists.
  - rewrite (app_removelast_last "" (l := c :: cs)) at 1 by done.
    rewrite get_at_app. intros H.
    destruct (get_at r (removelast (c :: cs))); [by eexists|done].
Qed.

Lemma hasPermOnParent_resolved (nodePath perm : string) (fs : FileSystem)
    (n : Node) :
  get_at (Root fs) (loc_of (pathCleaning ("/" ++ nodePath))) = Some n →
  hasPermOnParent (pathCleaning ("/" ++ nodePath)) perm fs = (fs, Ok tt).
Proof.
  intros H. apply parent_of_cleaned_resolves in H as [parent Hpar].
  unfold hasPermOnParent.
  by apply (proj1 (hasPermOnParent_from_spec _ perm (Root fs) fs) parent).
Qed.

(** ** Recursive permission checks *)

Lemma bind_ret_tt (c : M unit) (fs : FileSystem) : (c ;;; ret tt) fs = c fs.
Proof. unfold bind, ret. by destruct (c fs) as [fs' [[]|e|]]. Qed.

Lemma hasPerm_flat (n : Node) (perm : string) (fs : FileSystem) :
  hasPerm n perm false fs = checkPerm (ACL n) perm fs.
Proof.
  destruct n as [p ci ct mi mt x a v [cs|] k]; simpl; apply bind_ret_tt.
Qed.

Lemma hasPerm_children_Ok (perm : string) (l : list (string * Node))
    (fs : FileSystem) :
  (foldr (uncurry (λ (_ : string) c (others : M unit),
      if IsHidden c then others else hasPerm c perm true ;;; others))
      (ret tt) l fs).2 = Ok tt
  ↔ ∀ name c, (name, c) ∈ l → IsHidden c = false →
      (hasPerm c perm true fs).2 = Ok tt.
Proof.
  induction l as [|[name c] l IH]; simpl.
  - split; [|done]. intros _ name c Hin. by apply elem_of_nil in Hin.
  - set (others := foldr (uncurry (λ (_ : string) c (others : M unit),
                 if IsHidden c then others
                 else hasPerm c perm true ;;; others)) (ret tt) l) in *.
    assert (((if IsHidden c then others
              else hasPerm c perm true ;;; others) fs).2 = Ok tt
            ↔ (IsHidden c = false → (hasPerm c perm true fs).2 = Ok tt) ∧
              (others fs).2 = Ok tt) as Hstep.
    { destruct (IsHidden c).
      { split; [by intros H|by intros [_ H]]. }
      unfold bind. pose proof (hasPerm_state c perm true fs) as Hs.
      destruct (hasPerm c perm true fs) as [fs' [[]|e|]]; simpl in *; subst.
      - split; [by intros H|by intros [_ H]].
      - split; [done|]. intros [H _]. by specialize (H eq_refl).
      - split; [done|]. intros [H _]. by specialize (H eq_refl). }
    rewrite Hstep, IH. split.
    + intros [H1 H2] name' c' Hin Hh.
      apply elem_of_cons in Hin as [[= -> ->]|Hin]; [by apply H1|by eapply H2].
    + intros H. split.
      * intros Hh. apply (H name c); [apply elem_of_cons; by left|done].
      * intros name' c' Hin Hh. apply (H name' c'); [|done].
        apply elem_of_cons. by right.
Qed.

Lemma hasPerm_recursive_Ok (n : Node) (perm : string) (fs : FileSystem) :
  (hasPerm n perm true fs).2 = Ok tt
  ↔ granted (Root fs) (ACL n) getUser (utf8.range perm) ∧
    ∀ name c, child n name = Some c → IsHidden c = false →
      (hasPerm c perm true fs).2 = Ok tt.
Proof.
  destruct n as [p ci ct mi mt x a v cs k]. cbn [hasPerm ACL Children].
  unfold bind at 1. rewrite checkPerm_spec. unfold child. cbn [Children].
  destruct (decide (granted (Root fs) a getUser (utf8.range perm))) as [Hg|Hg].
  - destruct cs as [cs|].
    + rewrite map_fold_foldr, hasPerm_children_Ok. split.
      * intros H. split; [done|]. intros name c Hc Hh.
        apply (H name c); [by apply elem_of_map_to_list|done].
      * intros [_ H] name c Hc Hh. apply elem_of_map_to_list in Hc.
        by apply (H name c).
    + simpl. split; [done|]. by intros _.
  - simpl. split; [done|]. by intros [? _].
Qed.

(** ** The older adapter *)

Lemma check_perm_from_spec (get : string → N → N → M NodePtr)
    (norm : string → string) (acl perm : string) (rest : list N)
    (fs : FileSystem) :
  (∀ p index term, get p index term = InternalGet (norm p) index term) →
  V0.check_perm_from get acl perm rest fs
  = (fs, if decide (granted0 (λ p, loc_of (norm p)) (Root fs) acl
                      V0.getUserByCertSubj rest)
         then Ok tt else Err (NewError EcodePermissionDenied perm)).
Proof.
  intros Hget. induction rest as [|char rest IH]; [done|].
  change (V0.check_perm_from get acl perm (char :: rest) fs)
    with (match get (path.Join [acl; utf8.string_of_rune char;
                                V0.getUserByCertSubj])
                  (Index fs) (Term fs) fs with
          | (fs', Ok _) => V0.check_perm_from get acl perm rest fs'
          | (fs', Err _) => (fs', Err (NewError EcodePermissionDenied perm))
          | (fs', Panic) => (fs', Panic)
          end).
  rewrite Hget.
  destruct (decide (granted0 (λ p, loc_of (norm p)) (Root fs) acl
                      V0.getUserByCertSubj (char :: rest))) as [Hg|Hg];
    cbn [granted0] in Hg.
  - destruct Hg as [[n Hn] Hg].
    rewrite (InternalGet_found _ _ _ _ _ Hn), FileSystem_eta, IH.
    by rewrite decide_True.
  - destruct (get_at (Root fs)
        (loc_of (norm (path.Join [acl; utf8.string_of_rune char;
                                  V0.getUserByCertSubj]))))
      as [n|] eqn:Hn.
    + rewrite (InternalGet_found _ _ _ _ _ Hn), FileSystem_eta, IH.
      rewrite decide_False; [done|]. intros ?. apply Hg. by split.
    + destruct (InternalGet_missing _ (Index fs) (Term fs) _ Hn) as (e & -> & _).
      by rewrite FileSystem_eta.
Qed.

(** ** Create, case by case *)

Lemma refuses_hasPermOnParent_from (names : list string) (perm : string)
    (curNode : Node) : refuses perm (hasPermOnParent_from names perm curNode).
Proof.
  revert curNode. induction names as [|name names IH]; intros c fs; simpl.
  - by left.
  - destruct (child c name); [apply IH | apply refuses_checkPerm].
Qed.

Lemma Create_refused (nodePath value : string) (expireTime : time.Time)
    (index term : N) (now : time.Time) (fs : FileSystem) (err : Error) :
  (hasPermOnParent (pathCleaning ("/" ++ nodePath)) "w" fs).2 = Err err →
  err = NewError EcodePermissionDenied "w" ∧
  Create nodePath value expireTime index term now fs = (fs, Err err).
Proof.
  intros H. split.
  - destruct (refuses_hasPermOnParent_from
                (removelast (tail (strings.Split
                                     (pathCleaning ("/" ++ nodePath)))))
                "w" (Root fs) fs) as [H'|H'];
      unfold hasPermOnParent in H; congruence.
  - unfold Create, bind.
    pose proof (hasPermOnParent_state (pathCleaning ("/" ++ nodePath)) "w" fs)
      as Hs.
    destruct (hasPermOnParent (pathCleaning ("/" ++ nodePath)) "w" fs)
      as [fs1 r]; simpl in *. by subst.
Qed.


(** The directories that a Create makes on its way. *)
Lemma Create_directories (nodePath value : string)
    (expireTime : time.Time) (index term : N) (now : time.Time)
    (fs : FileSystem) :
  let p := pathCleaning ("/" ++ nodePath) in
  let loc := loc_of p in
  let out := Create nodePath value expireTime index term now fs in
  (hasPermOnParent p "w" fs).2 = Ok tt →
  get_at (Root fs) loc = None → ¬ file_on_the_way (Root fs) loc →
  out.2 = Ok (created_event p value expireTime index term now) ∧
  (∃ parent,
     get_at (Root out.1) (removelast loc) = Some parent ∧
     get_at (Root out.1) loc
     = Some (created p value expireTime index term (ACL parent))) ∧
  ∀ k, (1 ≤ k < List.length loc)%nat →
    get_at (Root fs) (take k loc) = None →
    ∃ dir parent,
      get_at (Root out.1) (take k loc) = Some dir ∧
      get_at (Root out.1) (take (k - 1) loc) = Some parent ∧
      made_dir index term parent dir.
Proof.
  intros p loc out Hp Hnone Hway. unfold out.
  destruct (Create_makes nodePath value expireTime index term now fs
              Hp Hnone Hway) as (fs' & parent & -> & Hpar & Hnew & _ & _ & Hmade).
  assert (tail (strings.Split p) ≠ []) as Hne.
  { intros Hnil. unfold loc, loc_of in Hnone. by rewrite Hnil in Hnone. }
  pose proof (new_loc_cleaned nodePath Hne) as Hloc. fold p in Hloc.
  fold p in Hnew, Hpar, Hmade. rewrite Hloc in Hnew. simpl.
  assert (loc = loc_of (path.Split p).1 ++ [(path.Split p).2])%list as Hl
    by (by unfold loc; rewrite <- Hloc).
  assert (removelast loc = loc_of (path.Split p).1) as Hrm
    by (by rewrite Hl, removelast_last).
  split; [done|]. split.
  { exists parent. by rewrite Hrm. }
  intros k Hk Hk0.
  assert (List.length loc = S (List.length (loc_of (path.Split p).1))) as Hlen.
  { rewrite Hl, length_app. simpl. lia. }
  assert (∀ j, (j ≤ List.length (loc_of (path.Split p).1))%nat →
            take j loc = take j (loc_of (path.Split p).1)) as Htake.
  { intros j Hj. rewrite Hl. by rewrite take_app_le. }
  rewrite Hlen in Hk.
  destruct (Hmade k) as (dir & par & H1 & H2 & H3).
  { lia. }
  { rewrite <- Htake by lia. done. }
  exists dir, par. rewrite !Htake by lia. done.
Qed.


(** ** Permission checks and the grants they look up *)




(** ** The lookup and the permission check that open Get, Update and
    TestAndSet *)

Lemma guarded_missing {A} (p perm : string) (recursive : bool)
    (index term : N) (k : NodePtr → M A) (fs : FileSystem) :
  get_at (Root fs) (loc_of p) = None →
  ∃ e, (n <- InternalGet p index term ;;
        hasPerm n.2 perm recursive ;;; k n) fs
       = (mkFileSystem (Root fs) (WatcherHub fs) index term, Err e) ∧
       (ErrorCode e = EcodeNotDir ∨ ErrorCode e = EcodeKeyNotFound) ∧
       (ErrorCode e = EcodeNotDir ↔ file_on_the_way (Root fs) (loc_of p)).
Proof.
  intros Hn. destruct (InternalGet_error p index term fs Hn) as (e & He & H).
  exists e. split; [|done]. by apply bind_Err.
Qed.

Lemma guarded_denied {A} (p perm : string) (recursive : bool)
    (index term : N) (k : NodePtr → M A) (fs : FileSystem) (n : Node) :
  get_at (Root fs) (loc_of p) = Some n →
  (hasPerm n perm recursive fs).2 ≠ Ok tt →
  (n <- InternalGet p index term ;; hasPerm n.2 perm recursive ;;; k n) fs
  = (mkFileSystem (Root fs) (WatcherHub fs) index term,
     Err (NewError EcodePermissionDenied perm)).
Proof.
  intros Hn Hp. erewrite bind_Ok by (by apply InternalGet_found). simpl.
  apply bind_Err. rewrite hasPerm_after_set. f_equal.
  by destruct (hasPerm_result n perm recursive fs).
Qed.

Lemma guarded_allowed {A} (p perm : string) (recursive : bool)
    (index term : N) (k : NodePtr → M A) (fs : FileSystem) (n : Node) :
  get_at (Root fs) (loc_of p) = Some n →
  (hasPerm n perm recursive fs).2 = Ok tt →
  (n <- InternalGet p index term ;; hasPerm n.2 perm recursive ;;; k n) fs
  = k (loc_of p, n) (mkFileSystem (Root fs) (WatcherHub fs) index term).
Proof.
  intros Hn Hp. erewrite bind_Ok by (by apply InternalGet_found). simpl.
  by erewrite bind_Ok by (by apply hasPerm_after_set_Ok).
Qed.

(** A change at one place leaves the places off its path as they are. *)
Lemma alter_at_off_path (f : Node → Node) (loc l : list string) (r : Node) :
  ¬ loc `prefix_of` l → ¬ l `prefix_of` loc →
  get_at (alter_at f loc r) l = get_at r l.
Proof.
  revert l r. induction loc as [|c loc IH]; intros l r H1 H2.
  { destruct H1. apply prefix_nil. }
  destruct l as [|c' l].
  { destruct H2. apply prefix_nil. }
  simpl. rewrite child_alter. destruct (decide (c = c')) as [<-|Hc]; [|done].
  destruct (child r c) as [x|]; simpl; [|done].
  apply IH; intros Hpre; [apply H1|apply H2]; by apply prefix_cons.
Qed.

(** A change of one node that keeps its children leaves every place that
    is not on the way to the node as it is. *)
Lemma alter_at_not_above (f : Node → Node) (loc l : list string) (r : Node) :
  (∀ n, Children (f n) = Children n) → ¬ l `prefix_of` loc →
  get_at (alter_at f loc r) l = get_at r l.
Proof.
  intros Hf. revert l r. induction loc as [|c loc IH]; intros l r Hl.
  - destruct l as [|c' l]; [destruct Hl; apply prefix_nil|].
    simpl. unfold child. by rewrite Hf.
  - destruct l as [|c' l]; [destruct Hl; apply prefix_nil|].
    simpl. rewrite child_alter. destruct (decide (c = c')) as [<-|Hc]; [|done].
    destruct (child r c) as [x|]; simpl; [|done].
    apply IH. intros Hpre. apply Hl. by apply prefix_cons.
Qed.

Lemma Children_updated (value : string) (expireTime : time.Time)
    (index term : N) (n : Node) :
  Children (updated value expireTime index term n) = Children n.
Proof.
  unfold updated. destruct (IsDir n); repeat case_decide; done.
Qed.

Lemma updated_event_fields (key value : string) (expireTime : time.Time)
    (index term : N) (now : time.Time) (n : Node) :
  let e := updated_event key value expireTime index term now n in
  Event.Action e = Event.Update ∧ Event.Key e = key ∧
  Event.Index e = index ∧ Event.Term e = term ∧
  Event.PrevValue e = (if IsDir n then "" else Value n) ∧
  Event.Value e = (if IsDir n then "" else value).
Proof.
  unfold updated_event.
  destruct (IsDir n); repeat case_decide; simpl; repeat split; try done.
  all: by destruct (decide (value = "")) as [->|?]; [|tauto].
Qed.

Lemma prefix_both (l1 l2 : list string) :
  l1 `prefix_of` l2 → l2 `prefix_of` l1 → l1 = l2.
Proof.
  intros [k ->] [k' H]. rewrite <- app_assoc in H.
  apply (f_equal List.length) in H. rewrite !length_app in H.
  destruct k; [by rewrite app_nil_r|]. simpl in H. lia.
Qed.

(** ** The form of a cleaned path *)

Lemma clean_step_clean_names (kept : list string) (c : string) :
  Forall is_clean_name kept → no_slash c →
  Forall is_clean_name (path.clean_step true kept c).
Proof.
  intros Hk Hc. unfold path.clean_step. repeat case_decide; try done.
  - destruct kept; [done|]. by inversion Hk.
  - constructor; [|done]. by repeat split.
Qed.

Lemma clean_fold_clean_names (cs kept : list string) :
  Forall no_slash cs → Forall is_clean_name kept →
  Forall is_clean_name (fold_left (path.clean_step true) cs kept).
Proof.
  revert kept. induction cs as [|c cs IH]; intros kept Hcs Hk; simpl; [done|].
  inversion Hcs; subst. apply IH; [done|]. by apply clean_step_clean_names.
Qed.

(** Cleaning keeps clean names as they are. *)
Lemma clean_fold_keeps (cs kept : list string) :
  Forall is_clean_name cs →
  fold_left (path.clean_step true) cs kept = (rev cs ++ kept)%list.
Proof.
  revert kept. induction cs as [|c cs IH]; intros kept Hcs; simpl; [done|].
  inversion Hcs as [|? ? [[Hne _] [Hd Hdd]] Hrest]; subst.
  rewrite <- app_assoc. simpl. rewrite <- IH by done. f_equal.
  unfold path.clean_step. by rewrite !decide_False.
Qed.

Lemma pathCleaning_form (nodePath : string) :
  let comps := rev (fold_left (path.clean_step true)
                      (strings.Split ("/" ++ nodePath)) []) in
  Forall is_clean_name comps ∧
  pathCleaning ("/" ++ nodePath)
  = (if decide (comps = []) then "" else "/" ++ strings.Join comps) ∧
  loc_of (pathCleaning ("/" ++ nodePath)) = comps.
Proof.
  intros comps.
  assert (Forall is_clean_name comps) as Hk.
  { apply Forall_rev. apply clean_fold_clean_names; [apply Split_no_slash|done]. }
  split; [done|].
  assert (pathCleaning ("/" ++ nodePath)
          = (if decide (comps = []) then "" else "/" ++ strings.Join comps))
    as Hform.
  { unfold pathCleaning, path.Clean.
    change (path.is_rooted ("/" ++ nodePath)) with true. cbv iota.
    fold comps. destruct comps as [|x cs] eqn:Hc; [done|].
    rewrite decide_False; [by rewrite decide_False|].
    apply last_byte_Join; [done|].
    eapply Forall_impl; [exact Hk|]. by intros ? [? _]. }
  split; [done|]. rewrite Hform. destruct comps as [|x cs] eqn:Hc; [done|].
  rewrite decide_False by done. unfold loc_of.
  change ("/" ++ strings.Join (x :: cs))
    with (String "/" (strings.Join (x :: cs))).
  simpl strings.Split. simpl tail.
  rewrite Split_Join; [|done|].
  - apply walked_names. eapply Forall_impl; [exact Hk|]. by intros ? [? _].
  - eapply Forall_impl; [exact Hk|]. by intros ? [[? ?] _].
Qed.

Lemma pathCleaning_again (nodePath : string) :
  pathCleaning ("/" ++ pathCleaning ("/" ++ nodePath))
  = pathCleaning ("/" ++ nodePath).
Proof.
  destruct (pathCleaning_form nodePath) as (Hk & Hform & _).
  set (comps := rev (fold_left (path.clean_step true)
                       (strings.Split ("/" ++ nodePath)) [])) in *.
  destruct (pathCleaning_form (pathCleaning ("/" ++ nodePath)))
    as (_ & Hform' & _).
  rewrite Hform', Hform. destruct comps as [|x cs] eqn:Hc.
  { vm_compute. reflexivity. }
  rewrite !(decide_False (P := x :: cs = [])) by done.
  change ("/" ++ "/" ++ strings.Join (x :: cs))
    with (String "/" (String "/" (strings.Join (x :: cs)))).
  simpl strings.Split.
  rewrite Split_Join; [|done|].
  - change (fold_left (path.clean_step true) ("" :: "" :: x :: cs) [])
      with (fold_left (path.clean_step true) (x :: cs) []).
    rewrite clean_fold_keeps by done.
    rewrite app_nil_r, rev_involutive. by rewrite decide_False.
  - eapply Forall_impl; [exact Hk|]. by intros ? [[? ?] _].
Qed.
(** * The claims *)

(** C8. Get mutates no node and arms no Expirer: it sets the stored
    (Index, Term) to the call's pair first, and what follows (the walk,
    the permission checks, the listing) only reads. After the call the
    root, and with it every node's value, children, ACL, expire time,
    indices and Expirers, and the watcher hub are what they were, and the
    stored pair is the call's. *)
Theorem Get_only_sets_index_term (nodePath : string) (recursive sorted : bool)
    (index term : N) :
  ∃ rest : M Event.t,
    reads rest ∧
    ∀ fs : FileSystem,
      Get nodePath recursive sorted index term fs
      = (setIndexTerm index term ;;; rest) fs ∧
      (Get nodePath recursive sorted index term fs).1
      = mkFileSystem (Root fs) (WatcherHub fs) index term.
Proof.
  set (p := pathCleaning ("/" ++ nodePath)).
  exists (n <- walk p getChild ;;
          hasPerm n.2 "r" recursive ;;;
          let e := newEvent Event.Get p index term in
          if IsDir n.2 then
            let pairs :=
              (λ c, Pair c recursive sorted) <$>
                filter (λ c, IsHidden c = false) (List n.2) in
            ret (Event.with_KVPairs
                   (if sorted then merge_sort KeyValuePair.le pairs else pairs)
                   (Event.with_Dir true e))
          else ret (Event.with_Value (Value n.2) e)).
  assert (reads (n <- walk p getChild ;;
          hasPerm n.2 "r" recursive ;;;
          let e := newEvent Event.Get p index term in
          if IsDir n.2 then
            let pairs :=
              (λ c, Pair c recursive sorted) <$>
                filter (λ c, IsHidden c = false) (List n.2) in
            ret (Event.with_KVPairs
                   (if sorted then merge_sort KeyValuePair.le pairs else pairs)
                   (Event.with_Dir true e))
          else ret (Event.with_Value (Value n.2) e))) as Hreads.
  { apply reads_bind; [apply reads_walk_getChild|]. intros n.
    apply reads_bind; [apply hasPerm_reads_refuses|]. intros _.
    destruct (IsDir n.2); apply reads_ret. }
  split; [done|]. intros fs.
  assert (Get nodePath recursive sorted index term fs
          = (setIndexTerm index term ;;; _) fs) as -> by apply bind_assoc.
  split; [done|]. rewrite setIndexTerm_then. apply Hreads.
Qed.

(** C9 (as the code has it). An operation stores the (index, term) pair it
    is given, as it is, with no comparison. After a Get, an Update, a
    TestAndSet or a Delete the stored pair is the pair supplied, whatever
    the operation returns; after a Create it is the pair supplied when the
    check on the parent has passed, and the pair stored before when that
    check refuses. The stored pair is therefore not smaller than before, in
    any reflexive order on pairs, when the pair supplied is not smaller
    than the stored one, and it is smaller than before, in any order, when
    an operation that stores its pair supplies a smaller one. *)
Theorem stored_pair_follows_supplied (now : time.Time) (op : Op)
    (fs : FileSystem) :
  let fs' := (apply now op fs).1 in
  clock fs' = (if stores_pair op fs then op_index_term op else clock fs) ∧
  (∀ R : relation (N * N), Reflexive R →
     R (clock fs) (op_index_term op) → R (clock fs) (clock fs')) ∧
  (∀ R : relation (N * N), stores_pair op fs = true →
     R (op_index_term op) (clock fs) → R (clock fs') (clock fs)).
Proof.
  assert (clock (apply now op fs).1
          = (if stores_pair op fs then op_index_term op else clock fs)) as H.
  { destruct op; simpl.
    - apply sets_Get.
    - rewrite clock_Create. by destruct (hasPermOnParent _ _ fs).2.
    - apply sets_Update.
    - apply sets_TestAndSet.
    - apply sets_Delete. }
  cbv zeta. rewrite H. split; [done|]. split.
  - intros R HR Hle. by destruct (stores_pair op fs).
  - intros R Hs Hlt. by rewrite Hs.
Qed.

#[local] Instance pair_le_refl : Reflexive pair_le.
Proof. intros [i t]. unfold pair_le. simpl. lia. Qed.

Lemma stored_pair_follows_supplied_witness :
  let fs5 := (apply 0%Z (OpGet "/" true true 5 1) fresh).1 in
  let fs3 := (apply 0%Z (OpGet "/" true true 3 1) fs5).1 in
  clock fs5 = (5%N, 1%N) ∧ pair_le (clock fresh) (clock fs5) ∧
  clock fs3 = (3%N, 1%N) ∧ ((clock fs3).1 < (clock fs5).1)%N.
Proof.
  intros fs5 fs3.
  destruct (stored_pair_follows_supplied 0%Z (OpGet "/" true true 5 1) fresh)
    as (H5 & Hle & _).
  destruct (stored_pair_follows_supplied 0%Z (OpGet "/" true true 3 1) fs5)
    as (H3 & _ & Hlt).
  split; [exact H5|]. split.
  - apply (Hle pair_le pair_le_refl). vm_compute. split; discriminate.
  - split; [exact H3|].
    apply (Hlt (λ a b, (a.1 < b.1)%N) eq_refl). vm_compute. reflexivity.
Defined.

(** C9, as it is stated, fails: a Get at index 3 after a Get at index 5
    takes the stored index back from 5 to 3. *)
Lemma stored_pair_goes_back :
  let fs5 := (apply 0%Z (OpGet "/" false false 5 1) fresh).1 in
  (Index (apply 0%Z (OpGet "/" false false 3 1) fs5).1 < Index fs5)%N.
Proof. vm_compute. reflexivity. Qed.

(** C1 (as the code has it). TestAndSet on an existing file that the
    caller may read and write succeeds exactly when [prevValue] equals the
    stored value or [prevIndex] equals the stored modified index, both by
    plain equality: one match is enough, and an empty [prevValue] or a zero
    [prevIndex] is compared like any other. On success the event carries
    the previous and the new value and the node is written; on mismatch
    the tree is unchanged and the error is ECompareFailed with the
    diagnostic "[prevValue/value] [prevIndex/modifiedIndex]". *)
Theorem TestAndSet_matches_value_or_index (nodePath prevValue : string)
    (prevIndex : N) (value : string) (expireTime : time.Time)
    (index term : N) (fs : FileSystem) (f : Node) :
  get_at (Root fs) (loc_of (pathCleaning ("/" ++ nodePath))) = Some f →
  (hasPerm f "rw" false fs).2 = Ok tt →
  IsDir f = false →
  let out := TestAndSet nodePath prevValue prevIndex value expireTime index
               term fs in
  (Value f = prevValue ∨ ModifiedIndex f = prevIndex →
   ∃ e, out.2 = Ok e ∧
        Event.PrevValue e = Value f ∧ Event.Value e = value ∧
        get_at (Root out.1) (loc_of (pathCleaning ("/" ++ nodePath)))
        = Some (Write value index term f)) ∧
  (¬ (Value f = prevValue ∨ ModifiedIndex f = prevIndex) →
   out.2 = Err (NewError EcodeTestFailed (cause_of prevValue prevIndex f)) ∧
   Root out.1 = Root fs).
Proof.
  intros Hf Hp Hd out. unfold out.
  rewrite (TestAndSet_found _ _ _ _ _ _ _ _ f) by done.
  split; intros Hm.
  - rewrite decide_True by done. simpl. eexists. split; [done|].
    repeat split. by apply get_at_alter_at.
  - by rewrite decide_False.
Qed.

Lemma TestAndSet_matches_value_or_index_witness :
  let f := newFile "/k" "v1" 1 1 "admin_aclname" Permanent in
  let out := TestAndSet "/k" "wrong" 0 "v2" Permanent 2 1 with_k in
  get_at (Root with_k) (loc_of (pathCleaning ("/" ++ "/k"))) = Some f ∧
  (hasPerm f "rw" false with_k).2 = Ok tt ∧
  IsDir f = false ∧
  out.2 = Err (NewError EcodeTestFailed "[wrong/v1] [0/1]") ∧
  Root out.1 = Root with_k.
Proof.
  intros f out.
  assert (get_at (Root with_k) (loc_of (pathCleaning ("/" ++ "/k"))) = Some f)
    as Hf by (vm_compute; reflexivity).
  assert ((hasPerm f "rw" false with_k).2 = Ok tt)
    as Hp by (vm_compute; reflexivity).
  assert (IsDir f = false) as Hd by reflexivity.
  split; [exact Hf|]. split; [exact Hp|]. split; [exact Hd|].
  apply (TestAndSet_matches_value_or_index "/k" "wrong" 0 "v2" Permanent 2 1
           with_k f Hf Hp Hd).
  vm_compute. intros [H|H]; discriminate H.
Defined.

(** C1, as it is stated, fails: with the value [v1] stored at modified
    index 1, a TestAndSet that supplies the right value and the wrong
    index 99 succeeds, although both are supplied and the index does not
    match. *)
Lemma TestAndSet_one_match_suffices :
  let f := newFile "/k" "v1" 1 1 "admin_aclname" Permanent in
  get_at (Root with_k) (loc_of (pathCleaning ("/" ++ "/k"))) = Some f ∧
  ¬ claimed_match "v1" 99 f ∧
  ∃ e, (TestAndSet "/k" "v1" 99 "v2" Permanent 2 1 with_k).2 = Ok e.
Proof.
  split; [vm_compute; reflexivity|]. split.
  - intros (_ & _ & [H|H]); discriminate H.
  - eexists. vm_compute. reflexivity.
Qed.

(** C3 (as the code has it). Update on an existing node that the caller
    may write, and that is not a directory given a value, cancels the
    node's Expirer only when both the node's expire time and the new one
    are not Permanent, and arms a fresh Expirer and records the new expire
    time exactly when the new one is not Permanent; with a Permanent new
    expire time the node keeps its expire time and its Expirer. If the
    node had an armed Expirer exactly when its expire time was not
    Permanent (and then one), it has so after the Update. *)
Theorem Update_rearms_expirer (nodePath value : string)
    (expireTime : time.Time) (index term : N) (now : time.Time)
    (fs : FileSystem) (n : Node) :
  get_at (Root fs) (loc_of (pathCleaning ("/" ++ nodePath))) = Some n →
  (hasPerm n "w" false fs).2 = Ok tt →
  IsDir n = false ∨ value = "" →
  let out := Update nodePath value expireTime index term now fs in
  ∃ e n',
    out.2 = Ok e ∧
    get_at (Root out.1) (loc_of (pathCleaning ("/" ++ nodePath))) = Some n' ∧
    Expirers n'
    = (if decide (ExpireTime n ≠ Permanent ∧ expireTime ≠ Permanent)
       then pred (Expirers n) else Expirers n)
      + (if decide (expireTime ≠ Permanent) then 1 else 0) ∧
    ExpireTime n'
    = (if decide (expireTime ≠ Permanent) then expireTime else ExpireTime n) ∧
    (expirer_ok n → expirer_ok n').
Proof.
  intros Hn Hp Hk out. unfold out.
  rewrite (Update_found _ _ _ _ _ _ _ n) by done.
  assert (IsDir n && bool_decide (value ≠ "") = false) as ->.
  { destruct Hk as [->| ->]; [done|]. rewrite bool_decide_false by auto.
    by destruct (IsDir n). }
  simpl. eexists _, (updated value expireTime index term n).
  split; [done|]. split; [by apply get_at_alter_at|].
  unfold updated, expirer_ok.
  assert (ExpireTime (if IsDir n then n else Write value index term n)
          = ExpireTime n) as HE by (by destruct (IsDir n)).
  assert (Expirers (if IsDir n then n else Write value index term n)
          = Expirers n) as HX by (by destruct (IsDir n)).
  rewrite HE.
  destruct (decide (ExpireTime n ≠ Permanent ∧ expireTime ≠ Permanent))
    as [[H1 H2]|H1];
    destruct (decide (expireTime ≠ Permanent)) as [H3|H3]; simpl;
    rewrite ?HE, ?HX; try tauto.
  - repeat split; [lia|]. intros ->. rewrite !decide_True by done. done.
  - repeat split; [lia|]. intros H. rewrite decide_True by done.
    rewrite H, decide_False by tauto. done.
  - repeat split; [lia|]. done.
Qed.

Lemma Update_rearms_expirer_witness :
  let n := arm (newFile "/tmp" "v" 10 1 "admin_aclname" 100%Z) in
  let out := Update "/tmp" "w" 200%Z 11 1 0%Z with_tmp in
  get_at (Root with_tmp) (loc_of (pathCleaning ("/" ++ "/tmp"))) = Some n ∧
  (hasPerm n "w" false with_tmp).2 = Ok tt ∧
  (IsDir n = false ∨ "w" = "") ∧
  ∃ e n',
    out.2 = Ok e ∧
    get_at (Root out.1) (loc_of (pathCleaning ("/" ++ "/tmp"))) = Some n' ∧
    Expirers n'
    = (if decide (ExpireTime n ≠ Permanent ∧ 200%Z ≠ Permanent)
       then pred (Expirers n) else Expirers n)
      + (if decide (200%Z ≠ Permanent) then 1 else 0) ∧
    ExpireTime n'
    = (if decide (200%Z ≠ Permanent) then 200%Z else ExpireTime n) ∧
    (expirer_ok n → expirer_ok n').
Proof.
  intros n out.
  assert (get_at (Root with_tmp) (loc_of (pathCleaning ("/" ++ "/tmp")))
          = Some n) as Hn by (vm_compute; reflexivity).
  assert ((hasPerm n "w" false with_tmp).2 = Ok tt)
    as Hp by (vm_compute; reflexivity).
  assert (IsDir n = false ∨ "w" = "") as Hk by (left; reflexivity).
  split; [exact Hn|]. split; [exact Hp|]. split; [exact Hk|].
  exact (Update_rearms_expirer "/tmp" "w" 200%Z 11 1 0%Z with_tmp n Hn Hp Hk).
Defined.

(** C3, as it is stated, fails: an Update with a Permanent expire time on
    a node that expires at 100 and has its Expirer armed cancels nothing:
    the node still has one armed Expirer, where the claim has none, and it
    still expires at 100. *)
Lemma Update_permanent_keeps_expirer :
  let out := Update "/tmp" "w" Permanent 11 1 0%Z with_tmp in
  ∃ n n',
    get_at (Root with_tmp) ["tmp"] = Some n ∧ Expirers n = 1 ∧
    get_at (Root out.1) ["tmp"] = Some n' ∧
    Expirers n' = 1 ∧ ExpireTime n' = 100%Z ∧
    Expirers n' ≠ claimed_Expirers Permanent.
Proof.
  eexists _, _. split; [vm_compute; reflexivity|]. split; [reflexivity|].
  split; [vm_compute; reflexivity|]. split; [reflexivity|].
  split; [reflexivity|]. vm_compute. discriminate.
Qed.

(** C6. Update on an existing node that the caller may write: a directory
    given a non-empty value is refused with ENotFile and the tree is
    unchanged; a directory given the empty value changes in its expire
    time (and Expirer) only; a file takes a non-empty value, keeps its
    value when the value given is empty, and takes the modified index and
    term of the call in both cases. *)
Theorem Update_value_and_kind (nodePath value : string)
    (expireTime : time.Time) (index term : N) (now : time.Time)
    (fs : FileSystem) (n : Node) :
  get_at (Root fs) (loc_of (pathCleaning ("/" ++ nodePath))) = Some n →
  (hasPerm n "w" false fs).2 = Ok tt →
  let out := Update nodePath value expireTime index term now fs in
  (IsDir n = true → value ≠ "" →
   out.2 = Err (NewError EcodeNotFile (pathCleaning ("/" ++ nodePath))) ∧
   Root out.1 = Root fs) ∧
  (IsDir n = true → value = "" →
   ∃ e n',
     out.2 = Ok e ∧
     get_at (Root out.1) (loc_of (pathCleaning ("/" ++ nodePath))) = Some n' ∧
     with_Expirers (Expirers n) (with_ExpireTime (ExpireTime n) n') = n) ∧
  (IsDir n = false →
   ∃ e n',
     out.2 = Ok e ∧
     get_at (Root out.1) (loc_of (pathCleaning ("/" ++ nodePath))) = Some n' ∧
     Value n' = (if decide (value = "") then Value n else value) ∧
     ModifiedIndex n' = index ∧ ModifiedTerm n' = term).
Proof.
  intros Hn Hp out. unfold out.
  rewrite (Update_found _ _ _ _ _ _ _ n) by done.
  split; [|split].
  - intros -> Hv. by rewrite bool_decide_true.
  - intros Hd ->. rewrite Hd, bool_decide_false by auto. simpl.
    eexists _, _. split; [done|]. split; [by apply get_at_alter_at|].
    unfold updated. rewrite Hd. destruct n. by repeat case_decide.
  - intros Hd. rewrite Hd. simpl.
    eexists _, _. split; [done|]. split; [by apply get_at_alter_at|].
    unfold updated. rewrite Hd.
    repeat case_decide; simpl; repeat case_decide; done.
Qed.

Lemma Update_value_and_kind_witness :
  let n := newFile "/k" "v1" 1 1 "admin_aclname" Permanent in
  let out := Update "/k" "" Permanent 2 1 0%Z with_k in
  get_at (Root with_k) (loc_of (pathCleaning ("/" ++ "/k"))) = Some n ∧
  (hasPerm n "w" false with_k).2 = Ok tt ∧
  ∃ e n',
    out.2 = Ok e ∧
    get_at (Root out.1) (loc_of (pathCleaning ("/" ++ "/k"))) = Some n' ∧
    Value n' = "v1" ∧ ModifiedIndex n' = 2%N ∧ ModifiedTerm n' = 1%N.
Proof.
  intros n out.
  assert (get_at (Root with_k) (loc_of (pathCleaning ("/" ++ "/k"))) = Some n)
    as Hn by (vm_compute; reflexivity).
  assert ((hasPerm n "w" false with_k).2 = Ok tt)
    as Hp by (vm_compute; reflexivity).
  split; [exact Hn|]. split; [exact Hp|].
  apply (Update_value_and_kind "/k" "" Permanent 2 1 0%Z with_k n Hn Hp).
  reflexivity.
Defined.

(** C6, as it is stated, fails: in the file system of the test of Delete
    the target [/sample] exists and is a directory, and an Update of it
    with a non-empty value is refused for the missing write permission,
    with EPermissionDenied and not with ENotFile. *)
Lemma Update_directory_without_write_permission :
  let out := Update "/sample" "x" Permanent 2 1 0%Z sample_read_only in
  ∃ d,
    get_at (Root sample_read_only) (loc_of (pathCleaning ("/" ++ "/sample")))
    = Some d ∧
    IsDir d = true ∧
    out.2 = Err (NewError EcodePermissionDenied "w") ∧
    out.2 ≠ Err (NewError EcodeNotFile (pathCleaning ("/" ++ "/sample"))).
Proof.
  eexists. split; [vm_compute; reflexivity|]. split; [reflexivity|].
  split; [vm_compute; reflexivity|]. vm_compute. discriminate.
Qed.

(** C2, at the failing input. In the file system of the test of Delete
    the directory [/sample] exists and its ACL does not grant writing:
    [checkPerm] on that ACL refuses. [hasPermOnParent] on a path directly
    under [/sample] makes no check and returns no error, and a Create
    under [/sample] succeeds. *)
Theorem hasPermOnParent_skips_existing_parent :
  ∃ parent e,
    get_at (Root sample_read_only) ["sample"] = Some parent ∧
    (checkPerm (ACL parent) "w" sample_read_only).2
    = Err (NewError EcodePermissionDenied "w") ∧
    (hasPermOnParent "/sample/x" "w" sample_read_only).2 = Ok tt ∧
    (Create "/sample/x" "1" Permanent 2 1 0%Z sample_read_only).2 = Ok e.
Proof.
  eexists _, _. split; [vm_compute; reflexivity|].
  split; [vm_compute; reflexivity|].
  split; vm_compute; reflexivity.
Qed.

(** C4, at the failing input: the first Delete of the test of Delete. The
    ACL of the parent [/sample] does not grant writing, and the recursive
    Delete of [/sample/gao] returns no error and removes the node. *)
Theorem Delete_without_permission_on_parent :
  let out := Delete "/sample/gao" true 1 1 sample_read_only in
  ∃ parent e,
    get_at (Root sample_read_only) ["sample"] = Some parent ∧
    (checkPerm (ACL parent) "w" sample_read_only).2
    = Err (NewError EcodePermissionDenied "w") ∧
    is_Some (get_at (Root sample_read_only) ["sample"; "gao"]) ∧
    out.2 = Ok e ∧
    get_at (Root out.1) ["sample"; "gao"] = None.
Proof.
  eexists _, _. split; [vm_compute; reflexivity|].
  split; [vm_compute; reflexivity|].
  split; [vm_compute; by eexists|].
  split; vm_compute; reflexivity.
Qed.

(** C5 (as the code has it). Create fails with ENodeExists when the path
    resolves, whatever the ACLs are. When the check on the parent refuses,
    Create fails with EPermissionDenied and changes nothing. When that
    check has passed, Create fails with ENotDir when a file is on the way,
    leaving the tree as it is, and otherwise it succeeds, the node is
    found at the path, and every directory on the way that was missing is
    a directory that is permanent, has no Expirer, has the ACL of its
    parent and has the index and term of the call as its created index
    and term. *)
Theorem Create_checks_parent_then_errors_or_makes (nodePath value : string)
    (expireTime : time.Time) (index term : N) (now : time.Time)
    (fs : FileSystem) :
  let p := pathCleaning ("/" ++ nodePath) in
  let loc := loc_of p in
  let out := Create nodePath value expireTime index term now fs in
  (∀ n, get_at (Root fs) loc = Some n →
     out.2 = Err (NewError EcodeNodeExist p) ∧ Root out.1 = Root fs) ∧
  (∀ err, (hasPermOnParent p "w" fs).2 = Err err →
     err = NewError EcodePermissionDenied "w" ∧ out = (fs, Err err)) ∧
  ((hasPermOnParent p "w" fs).2 = Ok tt →
   (file_on_the_way (Root fs) loc →
      ∃ e, out.2 = Err e ∧ ErrorCode e = EcodeNotDir ∧ Root out.1 = Root fs) ∧
   (get_at (Root fs) loc = None → ¬ file_on_the_way (Root fs) loc →
      ∃ e, out.2 = Ok e ∧ is_Some (get_at (Root out.1) loc) ∧
        ∀ k, (1 ≤ k < List.length loc)%nat →
          get_at (Root fs) (take k loc) = None →
          ∃ dir parent,
            get_at (Root out.1) (take k loc) = Some dir ∧
            get_at (Root out.1) (take (k - 1) loc) = Some parent ∧
            IsDir dir = true ∧ ExpireTime dir = Permanent ∧
            Expirers dir = 0 ∧ ACL dir = ACL parent ∧
            CreateIndex dir = index ∧ CreateTerm dir = term)).
Proof.
  intros p loc out. unfold out. split; [|split].
  - intros n Hn. rewrite (Create_exists _ _ _ _ _ _ _ n); [done| |done].
    by rewrite (hasPermOnParent_resolved nodePath "w" fs n).
  - intros err Herr. by apply Create_refused.
  - intros Hp. split.
    + intros Hf.
      destruct (Create_file_on_the_way nodePath value expireTime index term
                  now fs Hp Hf) as (e & -> & He).
      by exists e.
    + intros Hnone Hway.
      destruct (Create_directories nodePath value expireTime index term now fs
                  Hp Hnone Hway) as (He & (parent & _ & Hnew) & Hdirs).
      eexists. split; [exact He|]. split; [by eexists|].
      intros k Hk Hk0.
      destruct (Hdirs k Hk Hk0) as (dir & par & H1 & H2 & H3).
      by exists dir, par.
Qed.

Lemma Create_checks_parent_then_errors_or_makes_witness :
  let p := pathCleaning ("/" ++ "/a/b/c") in
  let loc := loc_of p in
  let out := Create "/a/b/c" "x" Permanent 1 1 0%Z fresh in
  (hasPermOnParent p "w" fresh).2 = Ok tt ∧
  get_at (Root fresh) loc = None ∧
  ¬ file_on_the_way (Root fresh) loc ∧
  ∃ e, out.2 = Ok e ∧ is_Some (get_at (Root out.1) loc) ∧
    ∀ k, (1 ≤ k < List.length loc)%nat →
      get_at (Root fresh) (take k loc) = None →
      ∃ dir parent,
        get_at (Root out.1) (take k loc) = Some dir ∧
        get_at (Root out.1) (take (k - 1) loc) = Some parent ∧
        IsDir dir = true ∧ ExpireTime dir = Permanent ∧ Expirers dir = 0 ∧
        ACL dir = ACL parent ∧
        CreateIndex dir = 1%N ∧ CreateTerm dir = 1%N.
Proof.
  intros p loc out.
  assert ((hasPermOnParent p "w" fresh).2 = Ok tt) as Hp
    by (vm_compute; reflexivity).
  assert (get_at (Root fresh) loc = None) as Hnone
    by (vm_compute; reflexivity).
  assert (¬ file_on_the_way (Root fresh) loc) as Hway.
  { apply (bool_decide_unpack (¬ file_on_the_way (Root fresh) loc)).
    vm_compute. exact I. }
  split; [exact Hp|]. split; [exact Hnone|]. split; [exact Hway|].
  exact (proj2 (proj2 (proj2 (Create_checks_parent_then_errors_or_makes
                                "/a/b/c" "x" Permanent 1 1 0%Z fresh)) Hp)
           Hnone Hway).
Defined.

(** C5, as it is stated, fails: in the file system of the test of Delete
    the path [/sample/x/y] does not resolve and no file is on its way, and
    yet a Create of it makes no directory: the ACL of [/sample] does not
    grant writing, and the Create fails with EPermissionDenied. *)
Lemma Create_refused_makes_no_directory :
  let loc := loc_of (pathCleaning ("/" ++ "/sample/x/y")) in
  let out := Create "/sample/x/y" "1" Permanent 2 1 0%Z sample_read_only in
  get_at (Root sample_read_only) loc = None ∧
  ¬ file_on_the_way (Root sample_read_only) loc ∧
  out.2 = Err (NewError EcodePermissionDenied "w") ∧
  get_at (Root out.1) (take 2 loc) = None.
Proof.
  split; [vm_compute; reflexivity|]. split.
  - apply (bool_decide_unpack
             (¬ file_on_the_way (Root sample_read_only)
                  (loc_of (pathCleaning ("/" ++ "/sample/x/y"))))).
    vm_compute. exact I.
  - split; vm_compute; reflexivity.
Qed.





(** * Further properties of the code *)

(** X1. InternalGet sets the stored (Index, Term) and changes nothing
    else. It returns the node at the components of the path that the walk
    reaches when that node exists; otherwise it returns an error, which is
    ENotDir when a file is on the way and EKeyNotFound when it is not. *)
Theorem InternalGet_finds_or_fails (nodePath : string) (index term : N)
    (fs : FileSystem) :
  ∃ r,
    InternalGet nodePath index term fs
    = (mkFileSystem (Root fs) (WatcherHub fs) index term, r) ∧
    match get_at (Root fs) (loc_of nodePath) with
    | Some n => r = Ok (loc_of nodePath, n)
    | None =>
        ∃ e, r = Err e ∧
             ErrorCode e
             = if decide (file_on_the_way (Root fs) (loc_of nodePath))
               then EcodeNotDir else EcodeKeyNotFound
    end.
Proof.
  destruct (get_at (Root fs) (loc_of nodePath)) as [n|] eqn:Hn.
  - eexists. split; [by apply InternalGet_found|done].
  - destruct (InternalGet_error nodePath index term fs Hn)
      as (e & -> & Hcode & Hiff).
    eexists. split; [done|]. exists e. split; [done|].
    case_decide as Hf.
    + by apply Hiff.
    + destruct Hcode as [Hc|Hc]; [|done]. by apply Hiff in Hc.
Qed.

(** X2. A walk ends at the first empty component: InternalGet on a path
    with a slash at its end, or with a double slash and anything after
    it, is InternalGet on the path before them. *)
Theorem InternalGet_stops_at_empty_component (nodePath rest : string)
    (index term : N) (fs : FileSystem) :
  InternalGet (nodePath ++ "/") index term fs
  = InternalGet nodePath index term fs ∧
  InternalGet (nodePath ++ "//" ++ rest) index term fs
  = InternalGet nodePath index term fs.
Proof.
  unfold InternalGet, walk. rewrite !setIndexTerm_then.
  change (nodePath ++ "//" ++ rest) with (nodePath ++ "/" ++ "/" ++ rest).
  change (nodePath ++ "/") with (nodePath ++ "/" ++ "").
  rewrite !tail_Split_app. split.
  - apply walk_from_stops.
  - change (strings.Split ("/" ++ rest)) with ("" :: strings.Split rest).
    apply walk_from_stops.
Qed.

(** X3. checkPerm changes nothing, and it succeeds exactly when, for every
    rune of the permission string, the grant of that rune to the user
    admin under the ACL resolves in the tree; otherwise it returns
    EPermissionDenied with the permission string as its cause. *)
Theorem checkPerm_looks_up_admin (aclName perm : string) (fs : FileSystem) :
  checkPerm aclName perm fs
  = (fs, if decide (granted (Root fs) aclName "admin" (utf8.range perm))
         then Ok tt
         else Err (NewError EcodePermissionDenied perm)).
Proof. apply checkPerm_spec. Qed.

(** X4. The older check_perm does the same for the user test, with the
    grants under the path that the ACL itself names, where the InternalGet
    of the file system looks for that path: with the newest file system,
    and with the older one, which cleans the path first. *)
Theorem check_perm_looks_up_test (acl perm : string) (fs : FileSystem) :
  V0.check_perm InternalGet acl perm fs
  = (fs, if decide (granted0 loc_of (Root fs) acl "test" (utf8.range perm))
         then Ok tt
         else Err (NewError EcodePermissionDenied perm)) ∧
  V0.check_perm V0.InternalGet acl perm fs
  = (fs, if decide (granted0 loc_of0 (Root fs) acl "test" (utf8.range perm))
         then Ok tt
         else Err (NewError EcodePermissionDenied perm)).
Proof.
  split.
  - by apply (check_perm_from_spec InternalGet (λ p, p)).
  - by apply (check_perm_from_spec V0.InternalGet
                (λ p, path.Clean ("/" ++ p))).
Qed.

(** X5. hasPerm changes nothing. Without [recursive] it is checkPerm on
    the ACL of the node. With [recursive] it succeeds exactly when the
    ACL of the node grants every rune of the permission string and
    hasPerm succeeds on every child that is not hidden, in whatever order
    the children are ranged over; hidden children are not checked. *)
Theorem hasPerm_checks_node_and_visible_children (n : Node) (perm : string)
    (recursive : bool) (fs : FileSystem) :
  (hasPerm n perm recursive fs).1 = fs ∧
  hasPerm n perm false fs = checkPerm (ACL n) perm fs ∧
  ((hasPerm n perm true fs).2 = Ok tt
   ↔ granted (Root fs) (ACL n) "admin" (utf8.range perm) ∧
     ∀ name c, child n name = Some c → IsHidden c = false →
       (hasPerm c perm true fs).2 = Ok tt).
Proof.
  split; [apply hasPerm_state|]. split; [apply hasPerm_flat|].
  apply hasPerm_recursive_Ok.
Qed.

(** X6. hasPermOnParent walks the names of the path before the last one.
    When all of them resolve it returns no error without any check; at
    the first name that is missing it is checkPerm on the ACL of the last
    node that is there. *)
Theorem hasPermOnParent_checks_at_first_missing (nodePath perm : string)
    (fs : FileSystem) :
  let names := removelast (tail (strings.Split nodePath)) in
  (∀ parent, get_at (Root fs) names = Some parent →
     hasPermOnParent nodePath perm fs = (fs, Ok tt)) ∧
  (∀ k anc name, names !! k = Some name →
     get_at (Root fs) (take k names) = Some anc → child anc name = None →
     hasPermOnParent nodePath perm fs = checkPerm (ACL anc) perm fs).
Proof. apply hasPermOnParent_from_spec. Qed.

Lemma hasPermOnParent_checks_at_first_missing_witness :
  hasPermOnParent "/a/b/c" "w" fresh = checkPerm (ACL (Root fresh)) "w" fresh.
Proof.
  apply (proj2 (hasPermOnParent_checks_at_first_missing "/a/b/c" "w" fresh)
           0 (Root fresh) "a").
  - vm_compute. reflexivity.
  - reflexivity.
  - vm_compute. reflexivity.
Defined.

(** X7. On a path of a node that exists, hasPermOnParent returns no error
    whatever the ACLs of the tree are: once its path is cleaned, every
    name before the last one resolves, so that no check is made. *)
Theorem hasPermOnParent_passes_on_existing (nodePath perm : string)
    (fs : FileSystem) (n : Node) :
  get_at (Root fs) (loc_of (pathCleaning ("/" ++ nodePath))) = Some n →
  hasPermOnParent (pathCleaning ("/" ++ nodePath)) perm fs = (fs, Ok tt).
Proof. apply hasPermOnParent_resolved. Qed.

Lemma hasPermOnParent_passes_on_existing_witness :
  get_at (Root sample_read_only)
    (loc_of (pathCleaning ("/" ++ "/sample/gao")))
  = Some (newFile "/sample/gao" "zhengao" 1 1 "admin_aclname" Permanent) ∧
  hasPermOnParent (pathCleaning ("/" ++ "/sample/gao")) "w" sample_read_only
  = (sample_read_only, Ok tt).
Proof.
  assert (get_at (Root sample_read_only)
            (loc_of (pathCleaning ("/" ++ "/sample/gao")))
          = Some (newFile "/sample/gao" "zhengao" 1 1 "admin_aclname" Permanent))
    as H by (vm_compute; reflexivity).
  split; [exact H|].
  exact (hasPermOnParent_passes_on_existing "/sample/gao" "w"
           sample_read_only _ H).
Defined.

(** X8. The check on the parent in Delete never refuses: for every path,
    flag, pair and file system, Delete does what it would do without the
    call of hasPermOnParent. The only permission that Delete asks for is
    the one on the subtree, and only when it is recursive. *)
Theorem Delete_parent_check_is_void (nodePath : string) (recursive : bool)
    (index term : N) (fs : FileSystem) :
  Delete nodePath recursive index term fs
  = Delete_without_parent_check nodePath recursive index term fs.
Proof.
  unfold Delete, Delete_without_parent_check.
  set (p := pathCleaning ("/" ++ nodePath)).
  destruct (InternalGet p index term fs) as [fs1 [n|e|]] eqn:HG.
  - rewrite (bind_Ok (InternalGet p index term) _ fs fs1 n HG).
    rewrite (bind_Ok (InternalGet p index term) _ fs fs1 n HG).
    apply InternalGet_Ok_inv in HG as (-> & _ & Hn).
    by erewrite bind_Ok
      by (apply (hasPermOnParent_resolved nodePath "w" _ n.2); exact Hn).
  - unfold bind. by rewrite HG.
  - unfold bind. by rewrite HG.
Qed.

(** X9. Create on a path that resolves fails with ENodeExists whatever
    the ACLs are, and changes nothing but the stored (Index, Term). *)
Theorem Create_on_existing_node (nodePath value : string)
    (expireTime : time.Time) (index term : N) (now : time.Time)
    (fs : FileSystem) (n : Node) :
  get_at (Root fs) (loc_of (pathCleaning ("/" ++ nodePath))) = Some n →
  Create nodePath value expireTime index term now fs
  = (mkFileSystem (Root fs) (WatcherHub fs) index term,
     Err (NewError EcodeNodeExist (pathCleaning ("/" ++ nodePath)))).
Proof.
  intros Hn. apply (Create_exists _ _ _ _ _ _ _ n); [|done].
  by rewrite (hasPermOnParent_resolved nodePath "w" fs n).
Qed.

Lemma Create_on_existing_node_witness :
  get_at (Root fresh) (loc_of (pathCleaning ("/" ++ "/"))) = Some (Root fresh) ∧
  Create "/" "x" Permanent 7 1 0%Z fresh
  = (mkFileSystem (Root fresh) (WatcherHub fresh) 7 1,
     Err (NewError EcodeNodeExist (pathCleaning ("/" ++ "/")))).
Proof.
  assert (get_at (Root fresh) (loc_of (pathCleaning ("/" ++ "/")))
          = Some (Root fresh)) as H by reflexivity.
  split; [exact H|].
  exact (Create_on_existing_node "/" "x" Permanent 7 1 0%Z fresh _ H).
Defined.
(** X10. Once the check on the parent has passed, Create fails with
    ENodeExists when the path resolves and with ENotDir when a file is on
    the way, in both cases leaving the tree as it is; otherwise it
    succeeds, the node is found at the path, and every directory on the
    way that was missing is a directory that is permanent, has no Expirer,
    has the ACL of its parent and has the index and term of the call as
    its created index and term. *)
Theorem Create_errors_and_directories (nodePath value : string)
    (expireTime : time.Time) (index term : N) (now : time.Time)
    (fs : FileSystem) :
  let p := pathCleaning ("/" ++ nodePath) in
  let loc := loc_of p in
  let out := Create nodePath value expireTime index term now fs in
  (hasPermOnParent p "w" fs).2 = Ok tt →
  (∀ n, get_at (Root fs) loc = Some n →
     out.2 = Err (NewError EcodeNodeExist p) ∧ Root out.1 = Root fs) ∧
  (file_on_the_way (Root fs) loc →
     ∃ e, out.2 = Err e ∧ ErrorCode e = EcodeNotDir ∧ Root out.1 = Root fs) ∧
  (get_at (Root fs) loc = None → ¬ file_on_the_way (Root fs) loc →
     ∃ e, out.2 = Ok e ∧ is_Some (get_at (Root out.1) loc) ∧
       ∀ k, (1 ≤ k < List.length loc)%nat →
         get_at (Root fs) (take k loc) = None →
         ∃ dir parent,
           get_at (Root out.1) (take k loc) = Some dir ∧
           get_at (Root out.1) (take (k - 1) loc) = Some parent ∧
           IsDir dir = true ∧ ExpireTime dir = Permanent ∧ Expirers dir = 0 ∧
           ACL dir = ACL parent ∧
           CreateIndex dir = index ∧ CreateTerm dir = term).
Proof.
  intros p loc out Hp. unfold out. split; [|split].
  - intros n Hn. by rewrite (Create_exists _ _ _ _ _ _ _ n).
  - intros Hf.
    destruct (Create_file_on_the_way nodePath value expireTime index term now
                fs Hp Hf) as (e & -> & He).
    by exists e.
  - intros Hnone Hway.
    destruct (Create_makes nodePath value expireTime index term now fs
                Hp Hnone Hway) as (fs' & parent & -> & Hpar & Hnew & _ & _ & Hmade).
    assert (tail (strings.Split p) ≠ []) as Hne.
    { intros Hnil. unfold loc, loc_of in Hnone. by rewrite Hnil in Hnone. }
    pose proof (new_loc_cleaned nodePath Hne) as Hloc. fold p in Hloc.
    eexists. split; [done|]. simpl. fold p in Hnew. rewrite Hloc in Hnew.
    split; [by eexists|].
    intros k Hk Hk0.
    assert (loc = loc_of (path.Split p).1 ++ [(path.Split p).2])%list as Hl
      by (by unfold loc; rewrite <- Hloc).
    assert (List.length loc = S (List.length (loc_of (path.Split p).1))) as Hlen.
    { rewrite Hl, length_app. simpl. lia. }
    assert (∀ j, (j ≤ List.length (loc_of (path.Split p).1))%nat →
              take j loc = take j (loc_of (path.Split p).1)) as Htake.
    { intros j Hj. rewrite Hl. by rewrite take_app_le. }
    rewrite Hlen in Hk. fold p in Hmade.
    destruct (Hmade k) as (dir & par & H1 & H2 & H3).
    { lia. }
    { rewrite <- Htake by lia. done. }
    exists dir, par. rewrite !Htake by lia. done.
Qed.

(** X11. When Create succeeds, a node is found at the path; given the
    empty value it is a directory and the event has the directory flag,
    and given another value it is a file with exactly that value and the
    event carries the value. CreateDir is Create with the empty value. *)
Theorem Create_file_or_directory (nodePath value : string)
    (expireTime : time.Time) (index term : N) (now : time.Time)
    (fs fs' : FileSystem) (e : Event.t) :
  Create nodePath value expireTime index term now fs = (fs', Ok e) →
  CreateDir nodePath expireTime index term now
  = Create nodePath "" expireTime index term now ∧
  ∃ n,
    get_at (Root fs') (loc_of (pathCleaning ("/" ++ nodePath))) = Some n ∧
    Path n = pathCleaning ("/" ++ nodePath) ∧
    Event.Action e = Event.Create ∧
    Event.Key e = pathCleaning ("/" ++ nodePath) ∧
    (value = "" →
     IsDir n = true ∧ Event.Dir e = true ∧ Event.Value e = "") ∧
    (value ≠ "" →
     IsDir n = false ∧ Value n = value ∧
     Event.Value e = value ∧ Event.Dir e = false).
Proof.
  intros H. split; [done|].
  destruct (Create_Ok_inv _ _ _ _ _ _ _ _ _ H) as (Hp & Hnone & Hway).
  destruct (Create_makes nodePath value expireTime index term now fs
              Hp Hnone Hway) as (fs2 & parent & HC & _ & Hnew & _).
  rewrite HC in H. injection H as <- <-.
  assert (tail (strings.Split (pathCleaning ("/" ++ nodePath))) ≠ []) as Hne.
  { intros Hnil. unfold loc_of in Hnone. by rewrite Hnil in Hnone. }
  rewrite (new_loc_cleaned nodePath Hne) in Hnew.
  eexists. split; [exact Hnew|].
  unfold created, created_event.
  destruct (decide (value ≠ "")) as [Hv|Hv];
    destruct (decide (expireTime ≠ Permanent)); simpl;
    split_and!; try done; intros ?; try done; by destruct Hv.
Qed.


Lemma Create_errors_and_directories_witness :
  let p := pathCleaning ("/" ++ "/a/b/c") in
  let loc := loc_of p in
  let out := Create "/a/b/c" "x" Permanent 1 1 0%Z fresh in
  (hasPermOnParent p "w" fresh).2 = Ok tt ∧
  get_at (Root fresh) loc = None ∧
  ¬ file_on_the_way (Root fresh) loc ∧
  ∃ e, out.2 = Ok e ∧ is_Some (get_at (Root out.1) loc) ∧
    ∀ k, (1 ≤ k < List.length loc)%nat →
      get_at (Root fresh) (take k loc) = None →
      ∃ dir parent,
        get_at (Root out.1) (take k loc) = Some dir ∧
        get_at (Root out.1) (take (k - 1) loc) = Some parent ∧
        IsDir dir = true ∧ ExpireTime dir = Permanent ∧ Expirers dir = 0 ∧
        ACL dir = ACL parent ∧
        CreateIndex dir = 1%N ∧ CreateTerm dir = 1%N.
Proof.
  intros p loc out.
  assert ((hasPermOnParent p "w" fresh).2 = Ok tt) as Hp
    by (vm_compute; reflexivity).
  assert (get_at (Root fresh) loc = None) as Hnone
    by (vm_compute; reflexivity).
  assert (¬ file_on_the_way (Root fresh) loc) as Hway.
  { apply (bool_decide_unpack (¬ file_on_the_way (Root fresh) loc)).
    vm_compute. exact I. }
  split; [exact Hp|]. split; [exact Hnone|]. split; [exact Hway|].
  exact (proj2 (proj2 (Create_errors_and_directories "/a/b/c" "x" Permanent
                         1 1 0%Z fresh Hp)) Hnone Hway).
Defined.

Lemma Create_file_or_directory_witness :
  let out := Create "/a/b/c" "x" Permanent 1 1 0%Z fresh in
  let e := created_event "/a/b/c" "x" Permanent 1 1 0%Z in
  Create "/a/b/c" "x" Permanent 1 1 0%Z fresh = (out.1, Ok e) ∧
  ∃ n,
    get_at (Root out.1) (loc_of (pathCleaning ("/" ++ "/a/b/c"))) = Some n ∧
    Path n = pathCleaning ("/" ++ "/a/b/c") ∧
    Event.Action e = Event.Create ∧
    Event.Key e = pathCleaning ("/" ++ "/a/b/c") ∧
    ("x" = "" →
     IsDir n = true ∧ Event.Dir e = true ∧ Event.Value e = "") ∧
    ("x" ≠ "" →
     IsDir n = false ∧ Value n = "x" ∧
     Event.Value e = "x" ∧ Event.Dir e = false).
Proof.
  intros out e.
  assert (Create "/a/b/c" "x" Permanent 1 1 0%Z fresh = (out.1, Ok e)) as He
    by (vm_compute; reflexivity).
  split; [exact He|].
  exact (proj2 (Create_file_or_directory "/a/b/c" "x" Permanent 1 1 0%Z
                  fresh out.1 e He)).
Defined.

(** X12. Update looks the node up, then asks for the permission to write,
    then looks at the kind of the node. A path that does not resolve gives
    the error of the lookup; a node that may not be written gives
    EPermissionDenied; a directory given a value gives ENotFile; in all
    three cases nothing but the stored pair changes. Otherwise Update
    succeeds: the hub is handed the event once, the event is an Update
    event at the cleaned path with the pair of the call, every place that
    is not on the way to the node holds what it held, and the nodes on
    the way change in their children only. *)
Theorem Update_checks_in_order (nodePath value : string)
    (expireTime : time.Time) (index term : N) (now : time.Time)
    (fs : FileSystem) :
  let p := pathCleaning ("/" ++ nodePath) in
  let loc := loc_of p in
  let out := Update nodePath value expireTime index term now fs in
  let unchanged := mkFileSystem (Root fs) (WatcherHub fs) index term in
  (get_at (Root fs) loc = None →
     ∃ e, out = (unchanged, Err e) ∧
          (ErrorCode e = EcodeNotDir ∨ ErrorCode e = EcodeKeyNotFound)) ∧
  (∀ n, get_at (Root fs) loc = Some n →
     ((hasPerm n "w" false fs).2 ≠ Ok tt →
        out = (unchanged, Err (NewError EcodePermissionDenied "w"))) ∧
     ((hasPerm n "w" false fs).2 = Ok tt → IsDir n = true → value ≠ "" →
        out = (unchanged, Err (NewError EcodeNotFile p))) ∧
     ((hasPerm n "w" false fs).2 = Ok tt → IsDir n = false ∨ value = "" →
        ∃ e, out.2 = Ok e ∧
             WatcherHub out.1 = (WatcherHub fs ++ [notified e])%list ∧
             clock out.1 = (index, term) ∧
             Event.Action e = Event.Update ∧ Event.Key e = p ∧
             Event.Index e = index ∧ Event.Term e = term ∧
             (∀ l, ¬ l `prefix_of` loc →
                get_at (Root out.1) l = get_at (Root fs) l) ∧
             (∀ l m, l `prefix_of` loc → l ≠ loc →
                get_at (Root fs) l = Some m →
                ∃ m', get_at (Root out.1) l = Some m' ∧ same_meta m m'))).
Proof.
  intros p loc out unchanged. unfold out. split.
  - intros Hn.
    destruct (InternalGet_error p index term fs Hn) as (e & He & Hc & _).
    exists e. split; [|exact Hc]. unfold Update. by apply bind_Err.
  - intros n Hn. split; [|split].
    + intros Hp. by apply (guarded_denied p "w" false index term _ fs n).
    + intros Hp Hd Hv. rewrite (Update_found _ _ _ _ _ _ _ n Hn Hp).
      by rewrite Hd, bool_decide_true.
    + intros Hp Hk. rewrite (Update_found _ _ _ _ _ _ _ n Hn Hp).
      assert (IsDir n && bool_decide (value ≠ "") = false) as ->.
      { destruct Hk as [->| ->]; [done|]. rewrite bool_decide_false by auto.
        by destruct (IsDir n). }
      cbv zeta. fold p loc.
      destruct (updated_event_fields p value expireTime index term now n)
        as (H1 & H2 & H3 & H4 & _).
      eexists. split; [done|]. simpl. split; [done|]. split; [done|].
      split; [done|]. split; [done|]. split; [done|]. split; [done|]. split.
      * intros l Hl. apply alter_at_not_above; [|done].
        intros m. apply Children_updated.
      * intros l m Hpre Hne Hm. apply alter_at_frame; [|done].
        intros Hpre'. apply Hne. by apply prefix_both.
Qed.

(** X13. TestAndSet looks the node up, then asks for the permission to
    read and write, then refuses a directory with ENotFile; in these
    cases nothing but the stored pair changes. When the swap goes through,
    the hub is handed the event once, the event is a TestAndSet event at
    the cleaned path with the pair of the call, every place that is not
    on the way to the node holds what it held, and the nodes on the way
    change in their children only. *)
Theorem TestAndSet_checks_in_order (nodePath prevValue : string)
    (prevIndex : N) (value : string) (expireTime : time.Time)
    (index term : N) (fs : FileSystem) :
  let p := pathCleaning ("/" ++ nodePath) in
  let loc := loc_of p in
  let out := TestAndSet nodePath prevValue prevIndex value expireTime index
               term fs in
  let unchanged := mkFileSystem (Root fs) (WatcherHub fs) index term in
  (get_at (Root fs) loc = None →
     ∃ e, out = (unchanged, Err e) ∧
          (ErrorCode e = EcodeNotDir ∨ ErrorCode e = EcodeKeyNotFound)) ∧
  (∀ f, get_at (Root fs) loc = Some f →
     ((hasPerm f "rw" false fs).2 ≠ Ok tt →
        out = (unchanged, Err (NewError EcodePermissionDenied "rw"))) ∧
     ((hasPerm f "rw" false fs).2 = Ok tt → IsDir f = true →
        out = (unchanged, Err (NewError EcodeNotFile p))) ∧
     ((hasPerm f "rw" false fs).2 = Ok tt → IsDir f = false →
      Value f = prevValue ∨ ModifiedIndex f = prevIndex →
        ∃ e, out.2 = Ok e ∧
             WatcherHub out.1 = (WatcherHub fs ++ [notified e])%list ∧
             clock out.1 = (index, term) ∧
             Event.Action e = Event.TestAndSet ∧ Event.Key e = p ∧
             Event.Index e = index ∧ Event.Term e = term ∧
             (∀ l, ¬ l `prefix_of` loc →
                get_at (Root out.1) l = get_at (Root fs) l) ∧
             (∀ l m, l `prefix_of` loc → l ≠ loc →
                get_at (Root fs) l = Some m →
                ∃ m', get_at (Root out.1) l = Some m' ∧ same_meta m m'))).
Proof.
  intros p loc out unchanged. unfold out. split.
  - intros Hn.
    destruct (InternalGet_error p index term fs Hn) as (e & He & Hc & _).
    exists e. split; [|exact Hc]. unfold TestAndSet. by apply bind_Err.
  - intros f Hf. split; [|split].
    + intros Hp. by apply (guarded_denied p "rw" false index term _ fs f).
    + intros Hp Hd. unfold TestAndSet. fold p.
      rewrite (guarded_allowed p "rw" false index term _ fs f Hf Hp).
      simpl. by rewrite Hd.
    + intros Hp Hd Hm. rewrite (TestAndSet_found _ _ _ _ _ _ _ _ f Hf Hp Hd).
      rewrite decide_True by done. cbv zeta. fold p loc.
      eexists. split; [done|]. simpl. split; [done|]. split; [done|].
      split; [done|]. split; [done|]. split; [done|]. split; [done|].
      split.
      * intros l Hl. by apply alter_at_not_above.
      * intros l m Hpre Hne Hm'. apply alter_at_frame; [|done].
        intros Hpre'. apply Hne. by apply prefix_both.
Qed.


(** X15. Delete looks the node up, and then, when it is recursive, asks
    for the permission to write on the whole visible subtree; the check on
    the parent that stands between the two never refuses. A path that does
    not resolve gives the error of the lookup, a refusal gives
    EPermissionDenied, and in both cases nothing but the stored pair
    changes. A Delete that is not recursive asks for no permission: it
    goes on to remove the node, and so does a recursive one that the
    subtree allows. *)
Theorem Delete_checks_subtree_only (nodePath : string) (recursive : bool)
    (index term : N) (fs : FileSystem) :
  let p := pathCleaning ("/" ++ nodePath) in
  let loc := loc_of p in
  let out := Delete nodePath recursive index term fs in
  let unchanged := mkFileSystem (Root fs) (WatcherHub fs) index term in
  (get_at (Root fs) loc = None →
     ∃ e, out = (unchanged, Err e) ∧
          (ErrorCode e = EcodeNotDir ∨ ErrorCode e = EcodeKeyNotFound)) ∧
  (∀ n, get_at (Root fs) loc = Some n →
     (recursive = true → (hasPerm n "w" true fs).2 ≠ Ok tt →
        out = (unchanged, Err (NewError EcodePermissionDenied "w"))) ∧
     (recursive = false ∨ (hasPerm n "w" true fs).2 = Ok tt →
        let e := newEvent Event.Delete p index term in
        let e := if IsDir n then Event.with_Dir true e
                 else Event.with_PrevValue (Value n) e in
        out = (Remove (loc, n) recursive (λ q, notifyWithPath e q true) ;;;
               notify e ;;; ret e) unchanged)).
Proof.
  intros p loc out unchanged. unfold out. split.
  - intros Hn.
    destruct (InternalGet_error p index term fs Hn) as (e & He & Hc & _).
    exists e. split; [|exact Hc]. unfold Delete. by apply bind_Err.
  - intros n Hn.
    assert (hasPermOnParent p "w" unchanged = (unchanged, Ok tt)) as Hpar.
    { by apply (hasPermOnParent_resolved nodePath "w" unchanged n). }
    unfold unchanged in *. split.
    + intros -> Hp. unfold Delete. fold p.
      erewrite bind_Ok by (by apply InternalGet_found).
      erewrite bind_Ok by exact Hpar. simpl.
      apply bind_Err. rewrite hasPerm_after_set. f_equal.
      by destruct (hasPerm_result n "w" true fs).
    + intros Hk. unfold Delete. fold p.
      erewrite bind_Ok by (by apply InternalGet_found).
      erewrite bind_Ok by exact Hpar. simpl.
      destruct recursive.
      * destruct Hk as [Hk|Hk]; [done|].
        by erewrite bind_Ok by (by apply hasPerm_after_set_Ok).
      * done.
Qed.

Lemma Update_checks_in_order_witness :
  let p := pathCleaning ("/" ++ "/k") in
  let loc := loc_of p in
  let n := newFile "/k" "v1" 1 1 "admin_aclname" Permanent in
  let out := Update "/k" "v2" Permanent 2 1 0%Z with_k in
  get_at (Root with_k) loc = Some n ∧
  (hasPerm n "w" false with_k).2 = Ok tt ∧
  (IsDir n = false ∨ "v2" = "") ∧
  ∃ e, out.2 = Ok e ∧
       WatcherHub out.1 = (WatcherHub with_k ++ [notified e])%list ∧
       clock out.1 = (2%N, 1%N) ∧
       Event.Action e = Event.Update ∧ Event.Key e = p ∧
       Event.Index e = 2%N ∧ Event.Term e = 1%N ∧
       (∀ l, ¬ l `prefix_of` loc →
          get_at (Root out.1) l = get_at (Root with_k) l) ∧
       (∀ l m, l `prefix_of` loc → l ≠ loc →
          get_at (Root with_k) l = Some m →
          ∃ m', get_at (Root out.1) l = Some m' ∧ same_meta m m').
Proof.
  intros p loc n out.
  assert (get_at (Root with_k) loc = Some n) as Hn by (vm_compute; reflexivity).
  assert ((hasPerm n "w" false with_k).2 = Ok tt) as Hp
    by (vm_compute; reflexivity).
  assert (IsDir n = false ∨ "v2" = "") as Hk by (left; reflexivity).
  split; [exact Hn|]. split; [exact Hp|]. split; [exact Hk|].
  exact (proj2 (proj2 (proj2 (Update_checks_in_order "/k" "v2" Permanent 2 1
                                0%Z with_k) n Hn)) Hp Hk).
Defined.

Lemma TestAndSet_checks_in_order_witness :
  let p := pathCleaning ("/" ++ "/sample") in
  let loc := loc_of p in
  let out := TestAndSet "/sample" "" 0 "x" Permanent 2 1 sample_read_only in
  ∃ d,
    get_at (Root sample_read_only) loc = Some d ∧
    (hasPerm d "rw" false sample_read_only).2 ≠ Ok tt ∧
    out = (mkFileSystem (Root sample_read_only) (WatcherHub sample_read_only)
             2 1,
           Err (NewError EcodePermissionDenied "rw")).
Proof.
  intros p loc out.
  exists (with_Children
            (Some {["gao" := newFile "/sample/gao" "zhengao" 1 1
                               "admin_aclname" Permanent]})
            (newDir "/sample" 1 1 "acl_name" Permanent)).
  set (d := with_Children _ _).
  assert (get_at (Root sample_read_only) loc = Some d) as Hd
    by (vm_compute; reflexivity).
  assert ((hasPerm d "rw" false sample_read_only).2 ≠ Ok tt) as Hp
    by (vm_compute; discriminate).
  split; [exact Hd|]. split; [exact Hp|].
  exact (proj1 (proj2 (TestAndSet_checks_in_order "/sample" "" 0 "x" Permanent
                         2 1 sample_read_only) d Hd) Hp).
Defined.


Lemma Delete_checks_subtree_only_witness :
  let p := pathCleaning ("/" ++ "/sample") in
  let loc := loc_of p in
  let out := Delete "/sample" true 2 1 sample_read_only in
  ∃ d,
    get_at (Root sample_read_only) loc = Some d ∧
    (hasPerm d "w" true sample_read_only).2 ≠ Ok tt ∧
    out = (mkFileSystem (Root sample_read_only) (WatcherHub sample_read_only)
             2 1,
           Err (NewError EcodePermissionDenied "w")).
Proof.
  intros p loc out.
  exists (with_Children
            (Some {["gao" := newFile "/sample/gao" "zhengao" 1 1
                               "admin_aclname" Permanent]})
            (newDir "/sample" 1 1 "acl_name" Permanent)).
  set (d := with_Children _ _).
  assert (get_at (Root sample_read_only) loc = Some d) as Hd
    by (vm_compute; reflexivity).
  assert ((hasPerm d "w" true sample_read_only).2 ≠ Ok tt) as Hp
    by (vm_compute; discriminate).
  split; [exact Hd|]. split; [exact Hp|].
  exact (proj1 (proj2 (Delete_checks_subtree_only "/sample" true 2 1
                         sample_read_only) d Hd) eq_refl Hp).
Defined.
(** X16. The cleaned path of any path is in one form: it is empty for the
    root, and otherwise a slash and a name for every component, where a
    name is not empty, has no slash and is neither [.] nor [..]. The
    lookup walks exactly these names, and cleaning a cleaned path gives
    it back. *)
Theorem pathCleaning_gives_names (nodePath : string) :
  let p := pathCleaning ("/" ++ nodePath) in
  Forall is_clean_name (loc_of p) ∧
  strings.Split p = "" :: loc_of p ∧
  p = (if decide (loc_of p = []) then ""
       else "/" ++ strings.Join (loc_of p)) ∧
  pathCleaning ("/" ++ p) = p.
Proof.
  intros p. destruct (pathCleaning_form nodePath) as (Hk & Hform & Hloc).
  fold p in Hform, Hloc. rewrite <- Hloc in Hk, Hform.
  split; [done|]. split; [|split; [done|apply pathCleaning_again]].
  rewrite Hform at 1. destruct (loc_of p) as [|x cs] eqn:Hc; [done|].
  rewrite decide_False by done.
  change ("/" ++ strings.Join (x :: cs))
    with (String "/" (strings.Join (x :: cs))).
  simpl strings.Split. f_equal. apply Split_Join; [done|].
  eapply Forall_impl; [exact Hk|]. by intros ? [[? ?] _].
Qed.
